(** * Alternating least squares: the [als] routine of the ALS notebook

    The notebook defines one function,

<<
    def als(ratings, users, items, reps=10):
        ratings_cols = ratings.T
        for _ in range(reps):
            new_users = []
            for i in range(len(ratings)):
                user = np.linalg.pinv(items).dot(ratings[i])
                new_users.append(user)
            new_users = np.asarray(new_users)
            new_items = []
            for i in range(len(ratings)):
                item = np.linalg.pinv(new_users).dot(ratings_cols[i])
                new_items.append(item)
            new_items = np.asarray(new_items)
            guess = new_users.dot(new_items.T)
            err = (ratings - guess)**2
            print(np.sum(err))
            items = new_items
        return new_users, new_items
>>

    which is embedded here as a computation in a state-and-exception monad.

    - Numbers.  NumPy works on binary floating point; the development
      idealises the entries as exact rationals ([Qc], the canonical
      rationals of the Standard Library, whose equality is Leibniz
      equality).  Rounding, infinities and NaN are outside the model, so
      the theorems about the program are about shapes, exceptions, what
      is read and written, and which solve feeds which.  A statement that
      starts with the words "in exact arithmetic" is about the
      idealisation only and claims no floating-point value.
    - Arrays.  A two-dimensional array is a shape together with its rows
      ([matrix]); values computed inside [als] can also be one-dimensional
      or zero-dimensional ([ndarray]), which happens when [ratings] has no
      row.
    - Exceptions.  NumPy and Python raise; the model returns [Raise e].
    - State.  The caller's three arrays live in a store and are passed by
      reference, as Python passes them; [print] appends to [stdout].
    - [np.linalg.pinv] is a library primitive.  [als] is parameterised by
      it ([Section ALS]); what the theorems about [als] assume of it is
      its shape law, which every call of the primitive meets.  The Penrose
      equations are not assumed of it: NumPy rounds, and takes singular
      values under a cutoff for zero ([pinv_rcond]).  Where a statement is
      about the exact pseudo-inverse, the equations are an explicit
      condition of it.  [pinv_mp], an exact pseudo-inverse by Greville's
      column recursion, lets the model run.

    The first half of the file holds the definitions: the NumPy fragment,
    the monad, [als], the reference pseudo-inverse, and the vocabulary of
    the statements.  The second half holds the lemmas and the theorems:
    what a run may read and write ([tame]), the value of a pass on
    well-shaped arrays ([Section OnePass]), the least-squares property of
    the pseudo-inverse ([Section LeastSquares]), and the theorems about
    [als] itself. *)

From Stdlib Require Import List ZArith QArith Qcanon Lia Bool Arith.
From Stdlib Require Qcabs.
Import ListNotations.

Local Open Scope Qc_scope.

(** ** Scalars and vectors *)

(** A vector is a list of rationals. *)
Abbreviation vec := (list Qc).

Definition Qc_eqb (x y : Qc) : bool := Qeq_bool x y.

(** The rational [z / 1]. *)
Definition qz (z : Z) : Qc := Q2Qc (inject_Z z).

(** Inner product of two vectors (the shorter one decides the length; the
    callers below check the lengths first, as NumPy does). *)
Fixpoint dotv (u v : vec) : Qc :=
  match u, v with
  | a :: u', b :: v' => a * b + dotv u' v'
  | _, _ => 0
  end.

Fixpoint vzip (f : Qc -> Qc -> Qc) (u v : vec) : vec :=
  match u, v with
  | a :: u', b :: v' => f a b :: vzip f u' v'
  | _, _ => []
  end.

Definition vadd : vec -> vec -> vec := vzip Qcplus.
Definition vsub : vec -> vec -> vec := vzip Qcminus.
Definition vscale (c : Qc) (v : vec) : vec := map (Qcmult c) v.
Definition vzero (n : nat) : vec := repeat 0 n.

(** [np.sum] of a one-dimensional array. *)
Definition vsum (v : vec) : Qc := fold_right Qcplus 0 v.

(** Sum of the squares of the entries. *)
Definition sumsq (v : vec) : Qc := dotv v v.

(** ** Arrays *)

(** A two-dimensional array: its shape and its rows. *)
Record matrix : Type := Mat { nrows : nat; ncols : nat; rows : list vec }.

(** The representation invariant of a two-dimensional array: [nrows] rows
    of [ncols] entries each. *)
Definition wf_rows (nr nc : nat) (l : list vec) : Prop :=
  length l = nr /\ Forall (fun r => length r = nc) l.

Definition wf (A : matrix) : Prop := wf_rows (nrows A) (ncols A) (rows A).

Definition wfb (A : matrix) : bool :=
  (length (rows A) =? nrows A)%nat
  && forallb (fun r => (length r =? ncols A)%nat) (rows A).

Inductive ndarray : Type :=
| Arr0 (x : Qc)          (* zero-dimensional: a scalar *)
| Arr1 (v : vec)         (* one-dimensional *)
| Arr2 (A : matrix).     (* two-dimensional *)

Inductive exn : Type :=
| ValueError | IndexError | LinAlgError | UnboundLocalError.

Inductive result (A : Type) : Type :=
| Ok (a : A)
| Raise (e : exn).
Arguments Ok {A} a.
Arguments Raise {A} e.

Definition rmap {A B} (f : A -> B) (r : result A) : result B :=
  match r with Ok a => Ok (f a) | Raise e => Raise e end.

(** ** The NumPy operations that [als] uses *)

(** Column [j] of a list of rows. *)
Definition column (j : nat) (l : list vec) : vec :=
  map (fun r => nth j r 0) l.

(** The columns of a list of rows of [nc] entries. *)
Definition columns (nc : nat) (l : list vec) : list vec :=
  map (fun j => column j l) (seq 0 nc).

(** [A.T] of a two-dimensional array. *)
Definition mT (A : matrix) : matrix :=
  Mat (ncols A) (nrows A) (columns (ncols A) (rows A)).

(** [a.T]: arrays of dimension below two are their own transpose. *)
Definition np_T (a : ndarray) : ndarray :=
  match a with
  | Arr2 A => Arr2 (mT A)
  | _ => a
  end.

(** [len(A)] of a two-dimensional array: the number of rows. *)
Definition np_len (A : matrix) : nat := nrows A.

(** [A[i]] of a two-dimensional array: row [i], or IndexError. *)
Definition np_getitem (A : matrix) (i : nat) : result vec :=
  if (i <? nrows A)%nat then Ok (nth i (rows A) []) else Raise IndexError.

(** Matrix times vector, entry by entry. *)
Definition matvec (l : list vec) (v : vec) : vec :=
  map (fun r => dotv r v) l.

(** [A.dot(v)], two-dimensional by one-dimensional. *)
Definition dot_mv (A : matrix) (v : vec) : result vec :=
  if (ncols A =? length v)%nat then Ok (matvec (rows A) v)
  else Raise ValueError.

(** Matrix times matrix: entry [(i, j)] is row [i] of the left operand
    times column [j] of the right one. *)
Definition matmul (A B : matrix) : matrix :=
  Mat (nrows A) (ncols B)
      (map (fun r => map (fun c => dotv r c) (columns (ncols B) (rows B)))
           (rows A)).

Definition mscale (c : Qc) (A : matrix) : matrix :=
  Mat (nrows A) (ncols A) (map (vscale c) (rows A)).

Definition ascale (c : Qc) (a : ndarray) : ndarray :=
  match a with
  | Arr0 x => Arr0 (c * x)
  | Arr1 v => Arr1 (vscale c v)
  | Arr2 A => Arr2 (mscale c A)
  end.

(** [a.dot(b)] for every pair of dimensions up to two. *)
Definition np_dot (a b : ndarray) : result ndarray :=
  match a, b with
  | Arr0 x, _ => Ok (ascale x b)
  | _, Arr0 y => Ok (ascale y a)
  | Arr1 u, Arr1 v =>
      if (length u =? length v)%nat then Ok (Arr0 (dotv u v))
      else Raise ValueError
  | Arr2 A, Arr1 v => rmap Arr1 (dot_mv A v)
  | Arr1 u, Arr2 B =>
      if (length u =? nrows B)%nat
      then Ok (Arr1 (map (dotv u) (columns (ncols B) (rows B))))
      else Raise ValueError
  | Arr2 A, Arr2 B =>
      if (ncols A =? nrows B)%nat then Ok (Arr2 (matmul A B))
      else Raise ValueError
  end.

Fixpoint same_length (n : nat) (l : list vec) : bool :=
  match l with
  | [] => true
  | v :: l' => (length v =? n)%nat && same_length n l'
  end.

(** [np.asarray] of a Python list of one-dimensional arrays: the empty
    list gives the one-dimensional empty array, vectors of one length give
    a two-dimensional array, and vectors of different lengths are
    refused. *)
Definition np_asarray (l : list vec) : result ndarray :=
  match l with
  | [] => Ok (Arr1 [])
  | v :: _ =>
      if same_length (length v) l
      then Ok (Arr2 (Mat (length l) (length v) l))
      else Raise ValueError
  end.

(** Broadcasting: an operand is read as a two-dimensional array (a scalar
    as 1 x 1, a vector as 1 x n), and an axis of extent 1 is repeated. *)
Definition as2d (a : ndarray) : matrix :=
  match a with
  | Arr0 x => Mat 1 1 [[x]]
  | Arr1 v => Mat 1 (length v) [v]
  | Arr2 A => A
  end.

Definition bdim (n1 n2 : nat) : option nat :=
  if (n1 =? n2)%nat then Some n1
  else if (n1 =? 1)%nat then Some n2
  else if (n2 =? 1)%nat then Some n1
  else None.

Definition bget (A : matrix) (i j : nat) : Qc :=
  nth (if (ncols A =? 1)%nat then 0%nat else j)
      (nth (if (nrows A =? 1)%nat then 0%nat else i) (rows A) []) 0.

(** [A - b] where [A] is two-dimensional: the result is two-dimensional,
    or ValueError when the shapes cannot be broadcast together. *)
Definition np_sub (A : matrix) (b : ndarray) : result matrix :=
  let B := as2d b in
  match bdim (nrows A) (nrows B), bdim (ncols A) (ncols B) with
  | Some nr, Some nc =>
      Ok (Mat nr nc
            (map (fun i => map (fun j => bget A i j - bget B i j) (seq 0 nc))
                 (seq 0 nr)))
  | _, _ => Raise ValueError
  end.

(** [A ** 2], entry by entry. *)
Definition np_square (A : matrix) : matrix :=
  Mat (nrows A) (ncols A) (map (map (fun x => x ^ 2)) (rows A)).

(** [np.sum(A)]: the sum of all the entries. *)
Definition np_sum (A : matrix) : Qc :=
  vsum (map vsum (rows A)).

(** ** The store, the output and the monad *)

Definition loc := nat.
Bind Scope nat_scope with loc.

(** The caller's arrays, by reference, and the printed numbers. *)
Record world : Type := World { heap : loc -> matrix; stdout : list Qc }.

Definition M (A : Type) : Type := world -> result A * world.

Definition ret {A} (a : A) : M A := fun w => (Ok a, w).

Definition bind {A B} (c : M A) (k : A -> M B) : M B :=
  fun w =>
    match c w with
    | (Ok a, w') => k a w'
    | (Raise e, w') => (Raise e, w')
    end.

Definition lift {A} (r : result A) : M A := fun w => (r, w).

Definition raise {A} (e : exn) : M A := lift (Raise e).

Notation "x <- c ;; k" := (bind c (fun x => k))
  (at level 61, c at next level, right associativity).
Notation "c ;;; k" := (bind c (fun _ => k))
  (at level 61, right associativity).

(** [print(x)]. *)
Definition print (x : Qc) : M unit :=
  fun w => (Ok tt, World (heap w) (stdout w ++ [x])).

(** A reference to one of the caller's arrays: the array itself, or its
    transposed view ([ratings.T] shares the memory of [ratings], so what
    is read through the view is what the store holds at that time). *)
Inductive view : Type :=
| Whole (l : loc)
| Transposed (l : loc).

Definition view_value (v : view) (w : world) : matrix :=
  match v with
  | Whole l => heap w l
  | Transposed l => mT (heap w l)
  end.

Definition read_view (v : view) : M matrix :=
  fun w => (Ok (view_value v w), w).

(** What a local variable of [als] is bound to: a reference into the
    caller's memory, or an array that [als] created. *)
Inductive obj : Type :=
| Caller (v : view)
| Fresh (a : ndarray).

Definition value_of (o : obj) (w : world) : ndarray :=
  match o with
  | Caller v => Arr2 (view_value v w)
  | Fresh a => a
  end.

Definition read (o : obj) : M ndarray := fun w => (Ok (value_of o w), w).

(** The body of [for i in range(n): x = body(i); acc.append(x)]. *)
Fixpoint for_append {A} (idx : list nat) (body : nat -> M A) (acc : list A)
  : M (list A) :=
  match idx with
  | [] => ret acc
  | i :: idx' => x <- body i ;; for_append idx' body (acc ++ [x])
  end.

(** ** [als] *)

Section ALS.

(** [np.linalg.pinv] on two-dimensional arrays. *)
Variable pinv : matrix -> matrix.

(** [np.linalg.pinv(a)]: NumPy refuses arrays of dimension below two. *)
Definition np_linalg_pinv (a : ndarray) : result matrix :=
  match a with
  | Arr2 A => Ok (pinv A)
  | _ => Raise LinAlgError
  end.

(** [np.linalg.pinv(factors).dot(target[i])], the right-hand side of
    lines 255 and 261: the pseudo-inverse is evaluated first, then the
    subscript, then the product. *)
Definition solve (factors : obj) (target : view) (i : nat) : M vec :=
  F <- read factors ;;
  G <- lift (np_linalg_pinv F) ;;
  T <- read_view target ;;
  t <- lift (np_getitem T i) ;;
  lift (dot_mv G t).

(** Lines 253-257: the user half-step. *)
Definition update_users (ratings : view) (items : obj) : M ndarray :=
  R <- read_view ratings ;;
  new_users <- for_append (seq 0 (np_len R)) (solve items ratings) [] ;;
  lift (np_asarray new_users).

(** Lines 259-263: the item half-step.  The loop bound is
    [len(ratings)], as in the source; the targets are the rows of
    [ratings_cols]. *)
Definition update_items (ratings ratings_cols : view) (new_users : ndarray)
  : M ndarray :=
  R <- read_view ratings ;;
  new_items <- for_append (seq 0 (np_len R))
                 (solve (Fresh new_users) ratings_cols) [] ;;
  lift (np_asarray new_items).

(** Lines 265-267: the reconstruction error, printed. *)
Definition report (ratings : view) (new_users new_items : ndarray)
  : M unit :=
  guess <- lift (np_dot new_users (np_T new_items)) ;;
  R <- read_view ratings ;;
  d <- lift (np_sub R guess) ;;
  let err := np_square d in
  print (np_sum err).

(** The local variables that live across iterations; [new_users] and
    [new_items] are unbound until the first iteration has run. *)
Record locals : Type := Locals {
  items_var : obj;
  new_users_var : option ndarray;
  new_items_var : option ndarray
}.

(** One pass through the body of the outer loop, lines 253-269. *)
Definition iteration (ratings ratings_cols : view) (st : locals)
  : M locals :=
  new_users <- update_users ratings (items_var st) ;;
  new_items <- update_items ratings ratings_cols new_users ;;
  report ratings new_users new_items ;;;
  ret (Locals (Fresh new_items) (Some new_users) (Some new_items)).

(** [for _ in range(reps)]. *)
Fixpoint loop (n : nat) (ratings ratings_cols : view) (st : locals)
  : M locals :=
  match n with
  | O => ret st
  | S n' => st' <- iteration ratings ratings_cols st ;;
            loop n' ratings ratings_cols st'
  end.

(** Line 271: reading an unbound local raises UnboundLocalError. *)
Definition return_factors (st : locals) : M (ndarray * ndarray) :=
  match new_users_var st, new_items_var st with
  | Some u, Some v => ret (u, v)
  | _, _ => raise UnboundLocalError
  end.

(** [als(ratings, users, items, reps)].  The arguments are references to
    the caller's arrays; [range(reps)] is empty for [reps <= 0]. *)
Definition als (ratings users items : loc) (reps : Z)
  : M (ndarray * ndarray) :=
  let ratings_cols := Transposed ratings in
  st <- loop (Z.to_nat reps) (Whole ratings) ratings_cols
          (Locals (Caller (Whole items)) None None) ;;
  return_factors st.

End ALS.

(** ** A reference pseudo-inverse

    Greville's recursion builds the Moore-Penrose inverse of a matrix one
    column at a time, with exact arithmetic only.  [cols] are the columns
    seen so far and [aplus] is the pseudo-inverse of the matrix they
    form. *)

Definition lincomb (n : nat) (coeffs : vec) (vs : list vec) : vec :=
  fold_right (fun cv acc => vadd (vscale (fst cv) (snd cv)) acc)
             (vzero n) (combine coeffs vs).

Definition is_zero (v : vec) : bool := forallb (fun x => Qc_eqb x 0) v.

Definition greville_step (n : nat) (st : list vec * list vec) (a : vec)
  : list vec * list vec :=
  let cols := fst st in
  let aplus := snd st in
  let d := matvec aplus a in
  let c := vsub a (lincomb n d cols) in
  let b := if is_zero c
           then vscale (/ (1 + dotv d d)) (lincomb n d aplus)
           else vscale (/ dotv c c) c in
  (cols ++ [a],
   map (fun gd => vsub (fst gd) (vscale (snd gd) b)) (combine aplus d) ++ [b]).

Definition pinv_mp (A : matrix) : matrix :=
  Mat (ncols A) (nrows A)
      (snd (fold_left (greville_step (nrows A))
                      (columns (ncols A) (rows A)) ([], []))).

(** ** What a run may read and write

    [emit w out] is the world [w] after [out] has been printed.  A
    computation is [tame] for the arrays at [ratings] and [items] when its
    result and the numbers it prints depend on the store only through
    those two arrays, it leaves the store as it was, it only appends to
    [stdout], and every number it prints is non-negative. *)

Definition emit (w : world) (out : list Qc) : world :=
  World (heap w) (stdout w ++ out).

Section Footprint.

Variables ratings items : loc.

Definition same_inputs (w w' : world) : Prop :=
  heap w ratings = heap w' ratings /\ heap w items = heap w' items.

Definition tame {A} (c : M A) : Prop :=
  forall w w', same_inputs w w' ->
    exists r out,
      Forall (fun e => 0 <= e) out
      /\ c w = (r, emit w out)
      /\ c w' = (r, emit w' out).

Definition view_loc (v : view) : loc :=
  match v with Whole l => l | Transposed l => l end.

Definition tame_view (v : view) : Prop :=
  view_loc v = ratings \/ view_loc v = items.

Definition tame_obj (o : obj) : Prop :=
  match o with Caller v => tame_view v | Fresh _ => True end.

End Footprint.

(** The last pass of the outer loop, seen from the [return]: the two
    half-steps and the report, starting from the item factors that the
    earlier passes left in [items]. *)
Definition final_iteration (pinv : matrix -> matrix)
           (ratings ratings_cols : view) (carried : obj)
  : M (ndarray * ndarray) :=
  new_users <- update_users pinv ratings carried ;;
  new_items <- update_items pinv ratings ratings_cols new_users ;;
  report ratings new_users new_items ;;;
  ret (new_users, new_items).

(** ** The value-level reading of the two half-steps

    Reading an array does not change the world, so a solve and a whole
    half-step are functions of the arrays they read.  These definitions
    say which; the lemmas [solve_run], [update_users_run] and
    [update_items_run] below relate them to the monadic code. *)

Definition rbind {A B} (r : result A) (k : A -> result B) : result B :=
  match r with Ok a => k a | Raise e => Raise e end.

Definition solve_value (pinv : matrix -> matrix)
           (F : ndarray) (T : matrix) (i : nat) : result vec :=
  rbind (np_linalg_pinv pinv F) (fun G =>
  rbind (np_getitem T i) (fun t => dot_mv G t)).

Fixpoint collect {A} (f : nat -> result A) (idx : list nat) (acc : list A)
  : result (list A) :=
  match idx with
  | [] => Ok acc
  | i :: idx' => rbind (f i) (fun x => collect f idx' (acc ++ [x]))
  end.

(** What [np.asarray] returns for a list of vectors of one length. *)
Definition stack (l : list vec) : ndarray :=
  match l with
  | [] => Arr1 []
  | v :: _ => Arr2 (Mat (length l) (length v) l)
  end.

(** The number that a pass prints for the factors [u] and [v]: the sum of
    the squared entries of [R - u.dot(v.T)]. *)
Definition sq_error (R : matrix) (u v : ndarray) : result Qc :=
  rbind (np_dot u (np_T v)) (fun guess =>
  rbind (np_sub R guess) (fun d => Ok (np_sum (np_square d)))).

(** What one pass computes from the ratings [R] and the item factors
    [V0] it starts from: the rows of the new user factors, the user
    factors as a two-dimensional array, and the rows of the new item
    factors, one for each of the first [len(R)] columns of the ratings. *)
Definition pass_users (pinv : matrix -> matrix) (R V0 : matrix) : list vec :=
  map (matvec (rows (pinv V0))) (rows R).

Definition pass_users_matrix (pinv : matrix -> matrix) (R V0 : matrix)
  : matrix :=
  Mat (nrows R) (ncols V0) (pass_users pinv R V0).

Definition pass_items (pinv : matrix -> matrix) (R V0 : matrix) : list vec :=
  map (matvec (rows (pinv (pass_users_matrix pinv R V0))))
      (firstn (nrows R) (columns (ncols R) (rows R))).

(** The item factors of a single least-squares pass in the words of the
    specification: the pseudo-inverse of the new user factors applied to
    each column of the ratings. *)
Definition single_pass_items (pinv : matrix -> matrix) (R V0 : matrix)
  : list vec :=
  map (matvec (rows (pinv (pass_users_matrix pinv R V0))))
      (columns (ncols R) (rows R)).

(** The item factors that a pass leaves in [items], and the item factors
    after [n] passes. *)
Definition next_items (pinv : matrix -> matrix) (R V : matrix) : matrix :=
  Mat (nrows R) (ncols V) (pass_items pinv R V).

Fixpoint items_after (pinv : matrix -> matrix) (R : matrix) (n : nat)
         (V : matrix) : matrix :=
  match n with
  | O => V
  | S n' => items_after pinv R n' (next_items pinv R V)
  end.

(** The shape law of the pseudo-inverse at [A]: a well-formed array of the
    transposed shape. *)
Definition pinv_shape_at (pinv : matrix -> matrix) (A : matrix) : Prop :=
  wf (pinv A) /\ nrows (pinv A) = ncols A /\ ncols (pinv A) = nrows A.

Definition pinv_shape (pinv : matrix -> matrix) : Prop :=
  forall A, wf A -> pinv_shape_at pinv A.

(** [G] is the Moore-Penrose inverse of [A] in exact arithmetic: the
    transposed shape and the four Penrose equations.  [np.linalg.pinv]
    approximates it: its entries are rounded to binary floating point, and
    singular values under its cutoff are taken for zero (see [pinv_rcond]
    below).  It is not the contract of [np.linalg.pinv]; a statement that
    needs the equations says so as an explicit condition. *)
Definition moore_penrose (A G : matrix) : Prop :=
  wf G /\ nrows G = ncols A /\ ncols G = nrows A
  /\ matmul (matmul A G) A = A
  /\ matmul (matmul G A) G = G
  /\ mT (matmul A G) = matmul A G
  /\ mT (matmul G A) = matmul G A.

(** The shape invariants of the specification: ratings m x r, user
    factors m x k, item factors r x k. *)
Definition shapes_match (R U V : matrix) : bool :=
  (nrows U =? nrows R)%nat && (nrows V =? ncols R)%nat
  && (ncols U =? ncols V)%nat.

(** ** Deciding equality of outcomes

    Two canonical rationals are equal when their fractions are, so the
    outcome of a run on concrete arrays can be compared by computation. *)

Fixpoint list_eqb {A} (eqb : A -> A -> bool) (l1 l2 : list A) : bool :=
  match l1, l2 with
  | [], [] => true
  | x :: l1', y :: l2' => eqb x y && list_eqb eqb l1' l2'
  | _, _ => false
  end.

Definition matrix_eqb (A B : matrix) : bool :=
  (nrows A =? nrows B)%nat && (ncols A =? ncols B)%nat
  && list_eqb (list_eqb Qc_eqb) (rows A) (rows B).

Definition ndarray_eqb (a b : ndarray) : bool :=
  match a, b with
  | Arr0 x, Arr0 y => Qc_eqb x y
  | Arr1 u, Arr1 v => list_eqb Qc_eqb u v
  | Arr2 A, Arr2 B => matrix_eqb A B
  | _, _ => false
  end.

Definition exn_eqb (e1 e2 : exn) : bool :=
  match e1, e2 with
  | ValueError, ValueError | IndexError, IndexError
  | LinAlgError, LinAlgError | UnboundLocalError, UnboundLocalError => true
  | _, _ => false
  end.

(** The value a call returns or the exception it raises, and what it has
    printed. *)
Definition outcome : Type := result (ndarray * ndarray) * list Qc.

Definition outcome_of (c : M (ndarray * ndarray)) (w : world) : outcome :=
  (fst (c w), stdout (snd (c w))).

Definition outcome_eqb (o1 o2 : outcome) : bool :=
  match fst o1, fst o2 with
  | Ok (u1, v1), Ok (u2, v2) => ndarray_eqb u1 u2 && ndarray_eqb v1 v2
  | Raise e1, Raise e2 => exn_eqb e1 e2
  | _, _ => false
  end
  && list_eqb Qc_eqb (snd o1) (snd o2).

Definition moore_penroseb (A G : matrix) : bool :=
  wfb G && (nrows G =? ncols A)%nat && (ncols G =? nrows A)%nat
  && matrix_eqb (matmul (matmul A G) A) A
  && matrix_eqb (matmul (matmul G A) G) G
  && matrix_eqb (mT (matmul A G)) (matmul A G)
  && matrix_eqb (mT (matmul G A)) (matmul G A).

(** ** Concrete arrays and stores *)

(** The two-dimensional array written as a list of rows of integers. *)
Definition of_ints (l : list (list Z)) : matrix :=
  Mat (length l) (length (hd [] l)) (map (map qz) l).

(** A store with [R] at location 0, [U] at 1 and [V] everywhere else. *)
Definition store3 (R U V : matrix) : loc -> matrix :=
  fun l => match l with O => R | S O => U | _ => V end.

Definition ratings33 : matrix := of_ints [[3; 3; 3]; [3; 3; 3]; [3; 3; 3]]%Z.
Definition ones31 : matrix := of_ints [[1]; [1]; [1]]%Z.
Definition threes31 : matrix := of_ints [[3]; [3]; [3]]%Z.

(** The scenario of the specification: a 3 x 3 matrix of 3s, one latent
    dimension, initial factors of 1s, nothing printed yet. *)
Definition scenario : world := World (store3 ratings33 ones31 ones31) [].

(** One user and two items: ratings 1 x 2, user factors 1 x 1, item
    factors 2 x 1. *)
Definition one_user_two_items : world :=
  World (store3 (of_ints [[3; 3]]%Z) (of_ints [[1]]%Z) (of_ints [[1]; [1]]%Z))
        [].

(** Two users and one item: ratings 2 x 1, user factors 2 x 1, item
    factors 1 x 1. *)
Definition two_users_one_item : world :=
  World (store3 (of_ints [[3]; [3]]%Z) (of_ints [[1]; [1]]%Z) (of_ints [[1]]%Z))
        [].

(** The scenario with user factors of the wrong shape, 1 x 1 instead of
    3 x 1. *)
Definition scenario_bad_users : world :=
  World (store3 ratings33 (of_ints [[1]]%Z) ones31) [].

(** The scenario with item factors of the wrong shape, 2 x 1 instead of
    3 x 1. *)
Definition scenario_bad_items : world :=
  World (store3 ratings33 ones31 (of_ints [[1]; [1]]%Z)) [].

(** Matrices on which the reference pseudo-inverse is checked below: full
    column rank, rank one, more columns than rows, and zero. *)
Definition tall32 : matrix := of_ints [[1; 0]; [0; 1]; [1; 1]]%Z.
Definition rank_one32 : matrix := of_ints [[1; 2]; [2; 4]; [3; 6]]%Z.
Definition wide23 : matrix := of_ints [[1; 2; 3]; [4; 5; 6]]%Z.
Definition zero22 : matrix := of_ints [[0; 0]; [0; 0]]%Z.

(** The pseudo-inverses of the two factor matrices of the scenario. *)
Definition thirds13 : matrix :=
  Mat 1 3 [[Q2Qc (1 # 3); Q2Qc (1 # 3); Q2Qc (1 # 3)]].
Definition ninths13 : matrix :=
  Mat 1 3 [[Q2Qc (1 # 9); Q2Qc (1 # 9); Q2Qc (1 # 9)]].

(** Two users and three items: ratings 2 x 3, user factors 2 x 1, item
    factors 3 x 1. *)
Definition two_users_three_items : world :=
  World (store3 (of_ints [[3; 3; 3]; [3; 3; 3]]%Z) (of_ints [[1]; [1]]%Z)
                ones31) [].

(** No user: ratings 0 x 3. *)
Definition no_users : world :=
  World (store3 (Mat 0 3 []) (Mat 0 1 []) ones31) [].

(** ** The error of a factorisation, entry by entry *)

(** A well-formed two-dimensional array of shape m x n. *)
Definition has_shape (m n : nat) (A : matrix) : Prop :=
  wf A /\ nrows A = m /\ ncols A = n.

(** The m x r table of the values [f i j]. *)
Definition tabulate (m r : nat) (f : nat -> nat -> Qc) : list vec :=
  map (fun i => map (fun j => f i j) (seq 0 r)) (seq 0 m).

(** The sum of all the entries of a list of rows. *)
Definition total (l : list vec) : Qc := vsum (map vsum l).

Definition entry (l : list vec) (i j : nat) : Qc := nth j (nth i l []) 0.

(** The squared residual of entry [(i, j)]: the rating against the inner
    product of user [i] and item [j]. *)
Definition residual_sq (R U V : matrix) (i j : nat) : Qc :=
  (entry (rows R) i j - dotv (nth i (rows U) []) (nth j (rows V) [])) ^ 2.

(** The sum of the squared residuals of [R] against [U V^T]. *)
Definition fit_error (R U V : matrix) : Qc :=
  total (tabulate (nrows R) (ncols R) (residual_sq R U V)).

Fixpoint nonincreasing (l : list Qc) : Prop :=
  match l with
  | x :: ((y :: _) as l') => y <= x /\ nonincreasing l'
  | _ => True
  end.

(** The error that a pass starting from the item factors [V] prints, and
    the errors that [n] passes print. *)
Definition pass_error (pinv : matrix -> matrix) (R V : matrix) : Qc :=
  fit_error R (pass_users_matrix pinv R V) (next_items pinv R V).

Fixpoint errors_from (pinv : matrix -> matrix) (R : matrix) (n : nat)
         (V : matrix) : list Qc :=
  match n with
  | O => []
  | S n' => pass_error pinv R V :: errors_from pinv R n' (next_items pinv R V)
  end.

(** Two users, two items and one latent dimension: ratings of rank two,
    which no factors of rank one reproduce. *)
Definition ratings22 : matrix := of_ints [[2; 1]; [1; 2]]%Z.
Definition unit21 : matrix := of_ints [[1]; [0]]%Z.
Definition two_by_two : world := World (store3 ratings22 unit21 unit21) [].

(** ** The other cells of the notebooks *)

(** The n x n identity matrix. *)
Definition eye (n : nat) : matrix :=
  Mat n n (map (fun i => map (fun j => if (i =? j)%nat then 1 else 0)
                             (seq 0 n))
               (seq 0 n)).

(** [N] is the inverse of [M] in exact arithmetic: [M] is square and
    [N] is a two-sided inverse of the same shape.  [np.linalg.inv]
    approximates it in binary floating point. *)
Definition inverse_of (M N : matrix) : Prop :=
  nrows M = ncols M
  /\ has_shape (nrows M) (nrows M) N
  /\ matmul M N = eye (nrows M)
  /\ matmul N M = eye (nrows M).

Definition Qc_leb (x y : Qc) : bool := Qle_bool x y.

(** [np.allclose(a, b)] with the default tolerances: every entry of
    [a - b], after broadcasting, is within [atol + rtol * |b|]. *)
Definition rtol : Qc := Q2Qc (1 # 100000).
Definition atol : Qc := Q2Qc (1 # 100000000).

Definition np_allclose (A B : matrix) : result bool :=
  match bdim (nrows A) (nrows B), bdim (ncols A) (ncols B) with
  | Some nr, Some nc =>
      Ok (forallb
            (fun i =>
               forallb (fun j => Qc_leb (Qcabs.Qcabs (bget A i j - bget B i j))
                                        (atol + rtol * Qcabs.Qcabs (bget B i j)))
                       (seq 0 nc))
            (seq 0 nr))
  | _, _ => Raise ValueError
  end.

Section Cells.

Variable pinv : matrix -> matrix.

(** [np.linalg.inv] on two-dimensional arrays; it raises LinAlgError on
    a matrix that is not square or has no inverse. *)
Variable inv : matrix -> result matrix.

Definition np_linalg_inv (a : ndarray) : result matrix :=
  match a with
  | Arr2 A => inv A
  | _ => Raise LinAlgError
  end.

(** [np.linalg.inv(A.T.dot(A)).dot(A.T).dot(b)], the normal equations of
    the ALS notebook. *)
Definition normal_equations (A b : ndarray) : result ndarray :=
  rbind (np_dot (np_T A) A) (fun AtA =>
  rbind (np_linalg_inv AtA) (fun N =>
  rbind (np_dot (Arr2 N) (np_T A)) (fun NAt =>
  np_dot NAt b))).

(** [np.linalg.pinv(A).dot(b)], in both notebooks. *)
Definition pinv_solution (A b : ndarray) : result ndarray :=
  rbind (np_linalg_pinv pinv A) (fun G => np_dot (Arr2 G) b).

(** [x = np.linalg.inv(M).dot(b)] and then [M.dot(x)], in the SVD
    notebook. *)
Definition inv_solution (M b : ndarray) : result ndarray :=
  rbind (np_linalg_inv M) (fun N => np_dot (Arr2 N) b).

Definition check_solution (M b : ndarray) : result ndarray :=
  rbind (inv_solution M b) (fun x => np_dot M x).

(** [np.allclose(np.linalg.inv(mat), np.linalg.pinv(mat))]. *)
Definition inv_close_to_pinv (mat : ndarray) : result bool :=
  rbind (np_linalg_inv mat) (fun N =>
  rbind (np_linalg_pinv pinv mat) (fun G =>
  np_allclose N G)).

End Cells.

(** A reference inverse: the reference pseudo-inverse where it is a
    two-sided inverse of a square matrix, LinAlgError otherwise. *)
Definition inv_ref (M : matrix) : result matrix :=
  if (nrows M =? ncols M)%nat
     && matrix_eqb (matmul M (pinv_mp M)) (eye (nrows M))
     && matrix_eqb (matmul (pinv_mp M) M) (eye (nrows M))
  then Ok (pinv_mp M) else Raise LinAlgError.

(** An invertible matrix and right-hand sides for the checks below. *)
Definition mat22 : matrix := of_ints [[2; 1]; [1; 1]]%Z.
Definition rhs21 : matrix := of_ints [[1]; [2]]%Z.
Definition rhs31 : matrix := of_ints [[1]; [2]; [3]]%Z.

(** ** The cutoff of [np.linalg.pinv]

    NumPy computes the pseudo-inverse from the singular values of its
    argument and sets to zero every singular value that is at most
    [rcond] times the largest one, [rcond = 1e-15] by default, as [als]
    calls it.  The singular values of a diagonal matrix are the absolute
    values of its diagonal entries, so on a diagonal matrix the rule is
    explicit: a diagonal entry above the cutoff is inverted and one at or
    below it becomes 0.  [pinv_rcond] is that rule on diagonal matrices;
    on the others the reference pseudo-inverse stands in for it. *)
Definition rcond : Qc := Q2Qc (1 # 1000000000000000).

Definition is_diagonal (A : matrix) : bool :=
  wfb A && (nrows A =? ncols A)%nat
  && forallb (fun i =>
                forallb (fun j => (i =? j)%nat
                                  || Qc_eqb (entry (rows A) i j) 0)
                        (seq 0 (ncols A)))
             (seq 0 (nrows A)).

Definition diagonal (A : matrix) : vec :=
  map (fun i => entry (rows A) i i) (seq 0 (nrows A)).

(** [amax] of the absolute values. *)
Definition max_abs (v : vec) : Qc :=
  fold_right (fun x acc => if Qc_leb acc (Qcabs.Qcabs x)
                           then Qcabs.Qcabs x else acc) 0 v.

Definition invert_above (cutoff x : Qc) : Qc :=
  if Qc_leb (Qcabs.Qcabs x) cutoff then 0 else / x.

Definition pinv_rcond (A : matrix) : matrix :=
  if is_diagonal A then
    let d := diagonal A in
    let cutoff := rcond * max_abs d in
    Mat (nrows A) (ncols A)
        (map (fun i =>
                map (fun j => if (i =? j)%nat
                              then invert_above cutoff (nth i d 0) else 0)
                    (seq 0 (ncols A)))
             (seq 0 (nrows A)))
  else pinv_mp A.

(** Item factors with a singular value below the cutoff, 2^-60 against 1,
    item factors without one, and ratings with the rows [0, 1] and
    [1, 0]. *)
Definition tiny22 : matrix :=
  Mat 2 2 [[1; 0]; [0; Q2Qc (1 # 1152921504606846976)]].
Definition halves22 : matrix := of_ints [[1; 0]; [0; 2]]%Z.
Definition swap22 : matrix := of_ints [[0; 1]; [1; 0]]%Z.

Definition ill_conditioned : world := World (store3 swap22 tiny22 tiny22) [].
Definition well_conditioned : world :=
  World (store3 swap22 halves22 halves22) [].

(** * Properties *)

(** ** The monad *)

Lemma bind_assoc {A B C} (c : M A) (k : A -> M B) (h : B -> M C) (w : world) :
  bind (bind c k) h w = bind c (fun a => bind (k a) h) w.
Proof.
  unfold bind. destruct (c w) as [[a|e] w1]; reflexivity.
Qed.

Lemma bind_ext {A B} (c : M A) (k k' : A -> M B) (w : world) :
  (forall a w1, k a w1 = k' a w1) -> bind c k w = bind c k' w.
Proof.
  intros H. unfold bind. destruct (c w) as [[a|e] w1]; auto.
Qed.

Lemma emit_nil (w : world) : emit w [] = w.
Proof. destruct w; unfold emit; cbn. now rewrite app_nil_r. Qed.

Lemma emit_emit (w : world) (a b : list Qc) :
  emit (emit w a) b = emit w (a ++ b).
Proof. unfold emit; cbn. now rewrite app_assoc. Qed.

(** ** Order facts on the rationals *)

Lemma Qc_sq_nonneg (x : Qc) : 0 <= x * x.
Proof.
  destruct x as [q Hq]. unfold Qcle, Qcmult, Q2Qc; cbn [this].
  rewrite !Qred_correct.
  destruct (Qlt_le_dec q 0).
  - setoid_replace (q * q)%Q with ((- q) * (- q))%Q by ring.
    apply Qmult_le_0_compat; apply Qlt_le_weak;
      apply (proj1 (Qlt_minus_iff q 0)) in q0;
      now rewrite Qplus_0_l in q0.
  - now apply Qmult_le_0_compat.
Qed.

Lemma Qc_add_nonneg (x y : Qc) : 0 <= x -> 0 <= y -> 0 <= x + y.
Proof.
  intros Hx Hy. replace 0 with (0 + 0) by ring.
  now apply Qcplus_le_compat.
Qed.

Lemma Qc_le_add_nonneg (x y : Qc) : 0 <= y -> x <= x + y.
Proof.
  intros Hy. replace x with (x + 0) at 1 by ring.
  apply Qcplus_le_compat; [apply Qcle_refl | exact Hy].
Qed.

Lemma vsum_nonneg (v : vec) : Forall (fun x => 0 <= x) v -> 0 <= vsum v.
Proof.
  induction 1 as [|x v Hx _ IH]; cbn.
  - apply Qcle_refl.
  - now apply Qc_add_nonneg.
Qed.

Lemma sumsq_nonneg (v : vec) : 0 <= sumsq v.
Proof.
  unfold sumsq. induction v as [|x v IH]; cbn.
  - apply Qcle_refl.
  - apply Qc_add_nonneg; [apply Qc_sq_nonneg | exact IH].
Qed.

Lemma np_sum_square_nonneg (A : matrix) : 0 <= np_sum (np_square A).
Proof.
  unfold np_sum, np_square; cbn [rows].
  apply vsum_nonneg. rewrite map_map. apply Forall_forall.
  intros s Hs. apply in_map_iff in Hs as [r [<- _]].
  apply vsum_nonneg. apply Forall_forall.
  intros y Hy. apply in_map_iff in Hy as [x [<- _]].
  cbn. replace (x * (x * 1)) with (x * x) by ring. apply Qc_sq_nonneg.
Qed.

(** ** The outer loop *)

(** A pass that completes binds [items], [new_users] and [new_items] to
    the arrays it created. *)
Lemma iteration_rebinds_items pinv r rc st w st' w1 :
  iteration pinv r rc st w = (Ok st', w1) ->
  exists a, items_var st' = Fresh a.
Proof.
  unfold iteration, bind, ret.
  destruct (update_users pinv r (items_var st) w) as [[u|e] w2];
    [|discriminate].
  destruct (update_items pinv r rc u w2) as [[v|e] w3]; [|discriminate].
  destruct (report r u v w3) as [[[]|e] w4]; [|discriminate].
  intros E. injection E as <- _. now exists v.
Qed.

(** Running [n + 1] passes is running [n] passes and then one more. *)
Lemma loop_snoc pinv r rc (n : nat) :
  forall st w,
    loop pinv (S n) r rc st w
    = bind (loop pinv n r rc st) (iteration pinv r rc) w.
Proof.
  induction n as [|n IH]; intros st w.
  - cbn [loop]. unfold bind, ret.
    destruct (iteration pinv r rc st w) as [[st'|e] w1]; reflexivity.
  - change (loop pinv (S (S n)) r rc st w)
      with (bind (iteration pinv r rc st) (loop pinv (S n) r rc) w).
    rewrite (bind_ext _ _ _ _ (IH)).
    now rewrite <- bind_assoc.
Qed.

(** The [return] after [n + 1] passes hands back what the last pass
    computed from the item factors that the first [n] passes left. *)
Lemma loop_then_return pinv r rc (n : nat) st w :
  bind (loop pinv (S n) r rc st) return_factors w
  = bind (loop pinv n r rc st)
         (fun st' => final_iteration pinv r rc (items_var st')) w.
Proof.
  unfold bind at 1. rewrite loop_snoc. unfold bind at 1 2.
  destruct (loop pinv n r rc st w) as [[st'|e] w1]; [|reflexivity].
  unfold iteration, final_iteration, bind, ret.
  destruct (update_users pinv r (items_var st') w1)
    as [[u|e] w2]; [|reflexivity].
  destruct (update_items pinv r rc u w2) as [[v|e] w3]; [|reflexivity].
  destruct (report r u v w3) as [[[]|e] w4]; reflexivity.
Qed.

(** ** Every piece of [als] is tame *)

Create HintDb tame.

Section Tame.

Variable pinv : matrix -> matrix.
Variables ratings items : loc.

Lemma tame_lift {A} (r : result A) : tame ratings items (lift r).
Proof.
  intros w w' _. exists r, []. rewrite !emit_nil. auto.
Qed.

Lemma tame_ret {A} (a : A) : tame ratings items (ret a).
Proof. exact (tame_lift (Ok a)). Qed.

Lemma tame_print (x : Qc) : 0 <= x -> tame ratings items (print x).
Proof.
  intros Hx w w' _. exists (Ok tt), [x]. auto.
Qed.

(** Sequencing, with a postcondition [P] on what the first computation
    returns. *)
Lemma tame_bind_post {A B} (P : A -> Prop) (c : M A) (k : A -> M B) :
  tame ratings items c ->
  (forall w a w1, c w = (Ok a, w1) -> P a) ->
  (forall a, P a -> tame ratings items (k a)) ->
  tame ratings items (bind c k).
Proof.
  intros Hc HP Hk w w' Hw.
  destruct (Hc w w' Hw) as (r & out & Hout & E & E').
  unfold bind. rewrite E, E'. destruct r as [a|e].
  - destruct (Hk a (HP _ _ _ E) (emit w out) (emit w' out))
      as (r2 & out2 & Hout2 & E2 & E2'); [exact Hw|].
    exists r2, (out ++ out2). rewrite E2, E2', !emit_emit.
    split; [now apply Forall_app | auto].
  - exists (Raise e), out. auto.
Qed.

Lemma tame_bind {A B} (c : M A) (k : A -> M B) :
  tame ratings items c ->
  (forall a, tame ratings items (k a)) ->
  tame ratings items (bind c k).
Proof.
  intros Hc Hk. apply (tame_bind_post (fun _ => True)); auto.
Qed.

Lemma tame_read_view (v : view) :
  tame_view ratings items v -> tame ratings items (read_view v).
Proof.
  intros Hv w w' [Hr Hi]. unfold read_view.
  exists (Ok (view_value v w)), []. rewrite !emit_nil.
  repeat split; auto.
  unfold tame_view in Hv.
  destruct v as [l|l]; cbn in *; destruct Hv; subst l;
    now rewrite <- ?Hr, <- ?Hi.
Qed.

Lemma tame_read (o : obj) :
  tame_obj ratings items o -> tame ratings items (read o).
Proof.
  intros Ho w w' Hw. unfold read.
  exists (Ok (value_of o w)), []. rewrite !emit_nil.
  repeat split; auto.
  destruct o as [v|a]; cbn in *; [|reflexivity].
  destruct (tame_read_view v Ho w w' Hw) as (r & out & _ & E & E').
  unfold read_view in E, E'. congruence.
Qed.

Lemma tame_for_append {A} (body : nat -> M A) :
  (forall i, tame ratings items (body i)) ->
  forall idx acc, tame ratings items (for_append idx body acc).
Proof.
  intros Hb idx. induction idx as [|i idx IH]; intros acc; cbn.
  - apply tame_ret.
  - apply tame_bind; auto.
Qed.

#[local] Hint Resolve tame_lift tame_ret tame_read tame_read_view
  tame_for_append np_sum_square_nonneg : tame.
#[local] Hint Extern 1 (tame_view _ _ (Whole _)) => left; reflexivity : tame.
#[local] Hint Extern 1 (tame_view _ _ (Transposed _)) => left; reflexivity
  : tame.
#[local] Hint Extern 1 (tame_obj _ _ (Fresh _)) => exact I : tame.

(** Walks through a sequence of binds whose steps are tame by the hints. *)
Ltac tame_steps :=
  repeat (apply tame_bind; [solve [auto with tame] | intro]);
  auto with tame.

Lemma tame_solve (factors : obj) (target : view) (i : nat) :
  tame_obj ratings items factors -> tame_view ratings items target ->
  tame ratings items (solve pinv factors target i).
Proof. intros Hf Ht. unfold solve. tame_steps. Qed.

#[local] Hint Resolve tame_solve : tame.

Lemma tame_update_users (r : view) (o : obj) :
  tame_view ratings items r -> tame_obj ratings items o ->
  tame ratings items (update_users pinv r o).
Proof. intros Hr Ho. unfold update_users. tame_steps. Qed.

Lemma tame_update_items (r rc : view) (u : ndarray) :
  tame_view ratings items r -> tame_view ratings items rc ->
  tame ratings items (update_items pinv r rc u).
Proof. intros Hr Hrc. unfold update_items. tame_steps. Qed.

(** The number printed is a sum of squares. *)
Lemma tame_report (r : view) (u v : ndarray) :
  tame_view ratings items r -> tame ratings items (report r u v).
Proof.
  intros Hr. unfold report. tame_steps.
  apply tame_print, np_sum_square_nonneg.
Qed.

#[local] Hint Resolve tame_update_users tame_update_items tame_report : tame.

Lemma tame_iteration (st : locals) :
  tame_obj ratings items (items_var st) ->
  tame ratings items (iteration pinv (Whole ratings) (Transposed ratings) st).
Proof. intros Hst. unfold iteration. tame_steps. Qed.

(** After a pass [items] is bound to a fresh array, so every later pass
    starts tame as well. *)
Lemma tame_loop (n : nat) :
  forall st, tame_obj ratings items (items_var st) ->
  tame ratings items (loop pinv n (Whole ratings) (Transposed ratings) st).
Proof.
  induction n as [|n IH]; intros st Hst; cbn [loop].
  - apply tame_ret.
  - apply (tame_bind_post (fun st' => tame_obj ratings items (items_var st'))).
    + now apply tame_iteration.
    + intros w st' w1 E.
      destruct (iteration_rebinds_items _ _ _ _ _ _ _ E) as [a ->].
      exact I.
    + intros st' Hst'. now apply IH.
Qed.

Lemma tame_als (users : loc) (reps : Z) :
  tame ratings items (als pinv ratings users items reps).
Proof.
  unfold als. apply tame_bind.
  - apply tame_loop. now right.
  - intros st. unfold return_factors.
    destruct (new_users_var st), (new_items_var st);
      first [apply tame_ret | apply (tame_lift (Raise UnboundLocalError))].
Qed.

End Tame.

(** ** Running the half-steps *)

Lemma solve_run pinv F tgt i w :
  solve pinv F tgt i w
  = (solve_value pinv (value_of F w) (view_value tgt w) i, w).
Proof.
  unfold solve, solve_value, bind, read, read_view, lift, rbind.
  destruct (np_linalg_pinv pinv (value_of F w)) as [G|e]; [|reflexivity].
  destruct (np_getitem (view_value tgt w) i) as [t|e]; reflexivity.
Qed.

Lemma for_append_run {A} (body : nat -> M A) (f : nat -> result A) w :
  (forall i, body i w = (f i, w)) ->
  forall idx acc, for_append idx body acc w = (collect f idx acc, w).
Proof.
  intros Hb idx. induction idx as [|i idx IH]; intros acc; cbn.
  - reflexivity.
  - unfold bind. rewrite Hb. destruct (f i) as [x|e]; cbn; auto.
Qed.

Lemma update_users_run pinv r o w :
  update_users pinv r o w
  = (rbind (collect (solve_value pinv (value_of o w) (view_value r w))
                    (seq 0 (nrows (view_value r w))) [])
           np_asarray, w).
Proof.
  unfold update_users, bind, read_view, np_len.
  rewrite (for_append_run _ (solve_value pinv (value_of o w) (view_value r w))).
  - destruct (collect _ _ _); reflexivity.
  - intros i. apply solve_run.
Qed.

Lemma update_items_run pinv r rc u w :
  update_items pinv r rc u w
  = (rbind (collect (solve_value pinv u (view_value rc w))
                    (seq 0 (nrows (view_value r w))) [])
           np_asarray, w).
Proof.
  unfold update_items, bind, read_view, np_len.
  rewrite (for_append_run _ (solve_value pinv u (view_value rc w))).
  - destruct (collect _ _ _); reflexivity.
  - intros i. apply solve_run.
Qed.

Lemma collect_ok {A} (f : nat -> result A) (g : nat -> A) idx :
  (forall i, In i idx -> f i = Ok (g i)) ->
  forall acc, collect f idx acc = Ok (acc ++ map g idx).
Proof.
  induction idx as [|i idx IH]; intros Hf acc; cbn.
  - now rewrite app_nil_r.
  - rewrite (Hf i) by now left. cbn.
    rewrite IH by (intros j Hj; apply Hf; now right).
    now rewrite <- app_assoc.
Qed.

Lemma collect_raise_first {A} (f : nat -> result A) i idx e acc :
  f i = Raise e -> collect f (i :: idx) acc = Raise e.
Proof. intros H. cbn. now rewrite H. Qed.

(** ** Shapes *)

Lemma map_nth_seq {A B} (g : A -> B) (l : list A) (d : A) :
  map (fun i => g (nth i l d)) (seq 0 (length l)) = map g l.
Proof.
  induction l as [|x l IH]; cbn; [reflexivity|].
  f_equal. rewrite <- seq_shift, map_map. exact IH.
Qed.

Lemma wf_rows_nth nr nc l i :
  wf_rows nr nc l -> (i < nr)%nat -> length (nth i l []) = nc.
Proof.
  intros [Hl Hr] Hi. rewrite Forall_forall in Hr.
  apply Hr, nth_In. now rewrite Hl.
Qed.

Lemma length_column j l : length (column j l) = length l.
Proof. unfold column. apply length_map. Qed.

Lemma length_columns nc l : length (columns nc l) = nc.
Proof. unfold columns. now rewrite length_map, length_seq. Qed.

Lemma wf_mT A : wf A -> wf (mT A).
Proof.
  intros [Hlen _]. split; cbn.
  - apply length_columns.
  - apply Forall_forall. intros c Hc. unfold columns in Hc.
    apply in_map_iff in Hc as [j [<- _]]. now rewrite length_column.
Qed.

Lemma length_matvec l v : length (matvec l v) = length l.
Proof. apply length_map. Qed.

Lemma same_length_matvec G (l : list vec) :
  same_length (length G) (map (matvec G) l) = true.
Proof.
  induction l as [|t l IH]; cbn; [reflexivity|].
  now rewrite length_matvec, Nat.eqb_refl.
Qed.

Lemma np_asarray_solved G (l : list vec) :
  np_asarray (map (matvec G) l) = Ok (stack (map (matvec G) l)).
Proof.
  destruct l as [|t l]; [reflexivity|].
  unfold np_asarray. cbn [map].
  change (matvec G t :: map (matvec G) l) with (map (matvec G) (t :: l)).
  rewrite length_matvec, same_length_matvec.
  cbn [map stack]. now rewrite length_matvec.
Qed.

Lemma stack_solved G (l : list vec) :
  l <> [] ->
  stack (map (matvec G) l)
  = Arr2 (Mat (length l) (length G) (map (matvec G) l)).
Proof.
  destruct l as [|t l]; [congruence|intros _].
  cbn [map stack]. now rewrite length_matvec, !length_cons, length_map.
Qed.

Lemma map_nth_seq_firstn {A B} (g : A -> B) (d : A) (n : nat) :
  forall l, (n <= length l)%nat ->
  map (fun i => g (nth i l d)) (seq 0 n) = map g (firstn n l).
Proof.
  induction n as [|n IH]; intros l Hn; [reflexivity|].
  destruct l as [|x l]; cbn in Hn; [lia|].
  cbn. f_equal. rewrite <- seq_shift, map_map. apply IH. lia.
Qed.

Lemma solve_value_ok pinv A T i :
  ncols (pinv A) = ncols T -> wf T -> (i < nrows T)%nat ->
  solve_value pinv (Arr2 A) T i
  = Ok (matvec (rows (pinv A)) (nth i (rows T) [])).
Proof.
  intros Hc HT Hi. unfold solve_value, np_linalg_pinv, np_getitem, rbind.
  apply Nat.ltb_lt in Hi as Hi'. rewrite Hi'. unfold dot_mv.
  rewrite (wf_rows_nth _ _ _ _ HT Hi), Hc, Nat.eqb_refl. reflexivity.
Qed.

(** The user half-step on well-shaped arrays: one solve per row of the
    ratings, in the order of the rows. *)
Lemma update_users_ok pinv r o w V :
  value_of o w = Arr2 V ->
  wf (view_value r w) ->
  ncols (pinv V) = ncols (view_value r w) ->
  update_users pinv r o w
  = (Ok (stack (map (matvec (rows (pinv V))) (rows (view_value r w)))), w).
Proof.
  intros HV HR Hc. rewrite update_users_run, HV.
  rewrite (collect_ok _ (fun i => matvec (rows (pinv V))
                                        (nth i (rows (view_value r w)) []))).
  - cbn [app rbind]. destruct HR as [Hlen _]. rewrite <- Hlen at 1.
    rewrite (map_nth_seq (matvec (rows (pinv V)))).
    now rewrite np_asarray_solved.
  - intros i Hi. apply in_seq in Hi. apply solve_value_ok; auto. lia.
Qed.

(** The item half-step when the user factors are a two-dimensional array:
    one solve per row of the ratings, against the first [len(ratings)]
    columns of the ratings. *)
Lemma update_items_ok pinv ratings w U :
  let R := heap w ratings in
  wf R ->
  ncols (pinv U) = nrows R ->
  (nrows R <= ncols R)%nat ->
  update_items pinv (Whole ratings) (Transposed ratings) (Arr2 U) w
  = (Ok (stack (map (matvec (rows (pinv U)))
                    (firstn (nrows R) (columns (ncols R) (rows R))))), w).
Proof.
  intros R HR Hc Hle. rewrite update_items_run.
  cbn [view_value]. fold R.
  rewrite (collect_ok _
             (fun i => matvec (rows (pinv U))
                              (nth i (columns (ncols R) (rows R)) []))).
  - cbn [app rbind].
    rewrite (map_nth_seq_firstn (matvec (rows (pinv U))))
      by (rewrite length_columns; exact Hle).
    now rewrite np_asarray_solved.
  - intros i Hi. apply in_seq in Hi.
    apply (solve_value_ok pinv U (mT R) i).
    + exact Hc.
    + now apply wf_mT.
    + cbn. lia.
Qed.

(** With no row in the ratings both loops are empty and both factors are
    the empty one-dimensional array. *)
Lemma update_items_empty pinv ratings w u :
  nrows (heap w ratings) = 0%nat ->
  update_items pinv (Whole ratings) (Transposed ratings) u w
  = (Ok (Arr1 []), w).
Proof.
  intros H0. rewrite update_items_run. cbn [view_value]. now rewrite H0.
Qed.

Lemma report_run r u v w :
  report r u v w
  = match sq_error (view_value r w) u v with
    | Ok e => (Ok tt, emit w [e])
    | Raise x => (Raise x, w)
    end.
Proof.
  unfold report, sq_error, bind, lift, read_view, rbind.
  destruct (np_dot u (np_T v)) as [g|x]; [|reflexivity].
  destruct (np_sub (view_value r w) g) as [d|x]; reflexivity.
Qed.

Lemma bdim_same n : bdim n n = Some n.
Proof. unfold bdim. now rewrite Nat.eqb_refl. Qed.

(** ** One pass on well-shaped arrays

    [R] is the ratings matrix, m x r, and [V0] the item factors that the
    pass starts from, with r rows.  The pass succeeds when m = r, and also
    when m <= 1; with more users than items the item loop indexes past the
    last column, and with fewer (but more than one) the subtraction
    [ratings - guess] cannot be broadcast. *)

Lemma bdim_one_r n : bdim n 1 = Some n.
Proof.
  unfold bdim. destruct (Nat.eqb_spec n 1) as [->|_]; reflexivity.
Qed.

Lemma collect_raise_at {A} (f : nat -> result A) (g : nat -> A) i post e :
  f i = Raise e ->
  forall pre acc,
    (forall j, In j pre -> f j = Ok (g j)) ->
    collect f (pre ++ i :: post) acc = Raise e.
Proof.
  intros Hi pre. induction pre as [|j pre IH]; intros acc Hpre; cbn.
  - now rewrite Hi.
  - rewrite (Hpre j) by now left. cbn.
    apply IH. intros j' Hj'. apply Hpre. now right.
Qed.

Lemma seq_split_at r m :
  (r < m)%nat -> seq 0 m = seq 0 r ++ r :: seq (S r) (m - S r).
Proof.
  intros H. replace m with (r + S (m - S r))%nat at 1 by lia.
  rewrite seq_app. reflexivity.
Qed.

Section OnePass.

Variable pinv : matrix -> matrix.
Variable ratings : loc.
Variable w : world.
Variables R V0 : matrix.

Hypothesis R_def : heap w ratings = R.
Hypothesis R_wf : wf R.
Hypothesis V0_rows : nrows V0 = ncols R.
Hypothesis pinv_V0 : pinv_shape_at pinv V0.
Hypothesis pinv_Um : pinv_shape_at pinv (pass_users_matrix pinv R V0).

Lemma pass_users_run o :
  value_of o w = Arr2 V0 ->
  update_users pinv (Whole ratings) o w
  = (Ok (stack (pass_users pinv R V0)), w).
Proof.
  intros Ho.
  rewrite (update_users_ok pinv (Whole ratings) o w V0 Ho);
    cbn [view_value]; rewrite R_def; [reflexivity|exact R_wf|].
  destruct pinv_V0 as (_ & _ & ->). exact V0_rows.
Qed.

Lemma stack_pass_users :
  nrows R <> 0%nat ->
  stack (pass_users pinv R V0) = Arr2 (pass_users_matrix pinv R V0).
Proof.
  intros Hm. unfold pass_users_matrix, pass_users. rewrite stack_solved.
  - destruct R_wf as [-> _]. destruct pinv_V0 as ([-> _] & -> & _).
    reflexivity.
  - destruct R_wf as [Hl _]. intros E. rewrite E in Hl. cbn in Hl. lia.
Qed.

Lemma pass_users_empty :
  nrows R = 0%nat -> pass_users pinv R V0 = [].
Proof.
  intros Hm. unfold pass_users. destruct R_wf as [Hl _]. rewrite Hm in Hl.
  apply length_zero_iff_nil in Hl. now rewrite Hl.
Qed.

Lemma pass_items_run :
  (nrows R <= ncols R)%nat ->
  update_items pinv (Whole ratings) (Transposed ratings)
               (stack (pass_users pinv R V0)) w
  = (Ok (stack (pass_items pinv R V0)), w).
Proof.
  intros Hle. destruct (Nat.eq_dec (nrows R) 0) as [Hm|Hm].
  - rewrite update_items_empty by now rewrite R_def.
    unfold pass_items. now rewrite Hm.
  - rewrite (stack_pass_users Hm).
    rewrite update_items_ok; rewrite R_def; try assumption; [reflexivity|].
    destruct pinv_Um as (_ & _ & ->). reflexivity.
Qed.

(** More users than items: the item loop asks for a column that the
    ratings do not have. *)
Lemma pass_items_index_error :
  (ncols R < nrows R)%nat ->
  update_items pinv (Whole ratings) (Transposed ratings)
               (stack (pass_users pinv R V0)) w
  = (Raise IndexError, w).
Proof.
  intros Hlt. rewrite stack_pass_users by lia.
  rewrite update_items_run. cbn [view_value]. rewrite R_def.
  rewrite (seq_split_at (ncols R) (nrows R) Hlt).
  rewrite (collect_raise_at _
             (fun j => matvec (rows (pinv (pass_users_matrix pinv R V0)))
                              (nth j (rows (mT R)) []))
             _ _ IndexError); [reflexivity| |].
  - unfold solve_value, np_linalg_pinv, np_getitem, rbind.
    cbn [mT nrows]. now rewrite Nat.ltb_irrefl.
  - intros j Hj. apply in_seq in Hj. apply solve_value_ok.
    + destruct pinv_Um as (_ & _ & ->). reflexivity.
    + now apply wf_mT.
    + cbn. lia.
Qed.

Lemma stack_pass_items :
  nrows R <> 0%nat -> (nrows R <= ncols R)%nat ->
  stack (pass_items pinv R V0)
  = Arr2 (Mat (nrows R) (ncols V0) (pass_items pinv R V0)).
Proof.
  intros Hm Hle. unfold pass_items. rewrite stack_solved.
  - rewrite length_firstn, length_columns, Nat.min_l by exact Hle.
    destruct pinv_Um as ([-> _] & -> & _). reflexivity.
  - intros E. apply (f_equal (@length (list Qc))) in E.
    rewrite length_firstn, length_columns, Nat.min_l in E by exact Hle.
    cbn in E. lia.
Qed.

(** The reconstruction error is defined exactly when the m x m product
    can be broadcast against the m x r ratings. *)
Lemma pass_error_ok :
  (nrows R <= ncols R)%nat ->
  nrows R = ncols R \/ (nrows R <= 1)%nat ->
  exists e,
    sq_error R (stack (pass_users pinv R V0)) (stack (pass_items pinv R V0))
    = Ok e.
Proof.
  intros Hle Hshape. destruct (Nat.eq_dec (nrows R) 0) as [Hm|Hm].
  - rewrite (pass_users_empty Hm). unfold pass_items. rewrite Hm.
    unfold sq_error, np_sub. cbn [firstn map stack np_T np_dot length
      Nat.eqb rbind as2d nrows ncols dotv].
    rewrite !bdim_one_r. cbn [rbind]. eauto.
  - rewrite (stack_pass_users Hm), (stack_pass_items Hm Hle).
    unfold sq_error. cbn [np_T np_dot mT nrows ncols pass_users_matrix].
    rewrite Nat.eqb_refl. cbn [rbind].
    unfold np_sub. cbn [as2d matmul nrows ncols].
    rewrite bdim_same.
    destruct Hshape as [<- | H1].
    + rewrite bdim_same. cbn [rbind]. eauto.
    + replace (nrows R) with 1%nat by lia.
      rewrite bdim_one_r. cbn [rbind]. eauto.
Qed.

Lemma pass_error_mismatch :
  (1 < nrows R < ncols R)%nat ->
  sq_error R (stack (pass_users pinv R V0)) (stack (pass_items pinv R V0))
  = Raise ValueError.
Proof.
  intros [H1 Hlt].
  rewrite stack_pass_users, stack_pass_items by lia.
  unfold sq_error. cbn [np_T np_dot mT nrows ncols pass_users_matrix].
  rewrite Nat.eqb_refl. cbn [rbind].
  unfold np_sub. cbn [as2d matmul mT nrows ncols pass_users_matrix].
  rewrite bdim_same. unfold bdim.
  destruct (Nat.eqb_spec (ncols R) (nrows R)); [lia|].
  destruct (Nat.eqb_spec (ncols R) 1); [lia|].
  destruct (Nat.eqb_spec (nrows R) 1); [lia|]. reflexivity.
Qed.

Lemma pass_iteration st :
  value_of (items_var st) w = Arr2 V0 ->
  (nrows R <= ncols R)%nat ->
  nrows R = ncols R \/ (nrows R <= 1)%nat ->
  exists e,
    sq_error R (stack (pass_users pinv R V0)) (stack (pass_items pinv R V0))
    = Ok e
    /\ iteration pinv (Whole ratings) (Transposed ratings) st w
       = (Ok (Locals (Fresh (stack (pass_items pinv R V0)))
                     (Some (stack (pass_users pinv R V0)))
                     (Some (stack (pass_items pinv R V0)))), emit w [e]).
Proof.
  intros Hst Hle Hshape.
  destruct (pass_error_ok Hle Hshape) as [e He]. exists e.
  split; [exact He|].
  unfold iteration, bind.
  rewrite (pass_users_run _ Hst), (pass_items_run Hle), report_run.
  cbn [view_value]. now rewrite R_def, He.
Qed.

Lemma pass_iteration_index_error st :
  value_of (items_var st) w = Arr2 V0 ->
  (ncols R < nrows R)%nat ->
  iteration pinv (Whole ratings) (Transposed ratings) st w
  = (Raise IndexError, w).
Proof.
  intros Hst Hlt. unfold iteration, bind.
  now rewrite (pass_users_run _ Hst), (pass_items_index_error Hlt).
Qed.

Lemma pass_iteration_broadcast_error st :
  value_of (items_var st) w = Arr2 V0 ->
  (1 < nrows R < ncols R)%nat ->
  iteration pinv (Whole ratings) (Transposed ratings) st w
  = (Raise ValueError, w).
Proof.
  intros Hst Hlt. unfold iteration, bind.
  rewrite (pass_users_run _ Hst), pass_items_run, report_run by lia.
  cbn [view_value]. now rewrite R_def, (pass_error_mismatch Hlt).
Qed.

End OnePass.

(** On a square ratings matrix the item loop meets every column. *)
Lemma pass_items_square pinv R V0 :
  nrows R = ncols R ->
  pass_items pinv R V0 = single_pass_items pinv R V0.
Proof.
  intros Hsq. unfold pass_items, single_pass_items.
  rewrite Hsq. rewrite <- (length_columns (ncols R) (rows R)) at 1.
  now rewrite firstn_all.
Qed.

Lemma wf_pass_users_matrix pinv R V0 :
  wf R -> pinv_shape_at pinv V0 -> wf (pass_users_matrix pinv R V0).
Proof.
  intros HR Hp. split; cbn.
  - unfold pass_users. rewrite length_map. apply HR.
  - apply Forall_forall. intros u Hu. unfold pass_users in Hu.
    apply in_map_iff in Hu as [t [<- _]]. rewrite length_matvec.
    destruct Hp as ([-> _] & -> & _). reflexivity.
Qed.

(** ** The reference pseudo-inverse obeys the shape law *)

Lemma length_vzip f u : forall v,
  length (vzip f u v) = Nat.min (length u) (length v).
Proof.
  induction u as [|a u IH]; intros [|b v]; cbn; auto.
Qed.

Lemma length_vscale c v : length (vscale c v) = length v.
Proof. apply length_map. Qed.

Lemma length_lincomb_pairs n (l : list (Qc * vec)) :
  Forall (fun cv => length (snd cv) = n) l ->
  length (fold_right (fun cv acc => vadd (vscale (fst cv) (snd cv)) acc)
                     (vzero n) l) = n.
Proof.
  induction 1 as [|[c v] l Hv _ IH]; cbn [fold_right fst snd].
  - apply repeat_length.
  - unfold vadd at 1. rewrite length_vzip, length_vscale, IH.
    cbn [snd] in Hv. rewrite Hv. apply Nat.min_id.
Qed.

Lemma length_lincomb n coeffs vs :
  Forall (fun v => length v = n) vs -> length (lincomb n coeffs vs) = n.
Proof.
  intros Hvs. apply length_lincomb_pairs.
  apply Forall_forall. intros [c v] Hin. apply in_combine_r in Hin.
  rewrite Forall_forall in Hvs. now apply Hvs.
Qed.

Lemma greville_step_shape n st a :
  length a = n ->
  Forall (fun v => length v = n) (fst st) ->
  Forall (fun v => length v = n) (snd st) ->
  Forall (fun v => length v = n) (fst (greville_step n st a))
  /\ Forall (fun v => length v = n) (snd (greville_step n st a))
  /\ length (snd (greville_step n st a)) = S (length (snd st)).
Proof.
  intros Ha Hcols Hplus. destruct st as [cols aplus]; cbn [fst snd] in *.
  unfold greville_step; cbn [fst snd].
  set (d := matvec aplus a).
  set (c := vsub a (lincomb n d cols)).
  assert (Hc : length c = n).
  { unfold c, vsub. rewrite length_vzip, Ha, length_lincomb by assumption.
    apply Nat.min_id. }
  set (b := if is_zero c then _ else _).
  assert (Hb : length b = n).
  { unfold b. destruct (is_zero c); rewrite length_vscale; auto.
    now apply length_lincomb. }
  repeat split.
  - apply Forall_app. split; [assumption|]. now constructor.
  - apply Forall_app. split; [|now constructor].
    apply Forall_forall. intros r Hr.
    apply in_map_iff in Hr as [[g dj] [<- Hin]]. cbn [fst snd].
    apply in_combine_l in Hin. rewrite Forall_forall in Hplus.
    unfold vsub. rewrite length_vzip, length_vscale, Hb, (Hplus g Hin).
    apply Nat.min_id.
  - rewrite length_app, length_map, length_combine. unfold d.
    rewrite length_matvec, Nat.min_id. apply Nat.add_1_r.
Qed.

Lemma greville_fold_shape n cs : forall st,
  Forall (fun v => length v = n) cs ->
  Forall (fun v => length v = n) (fst st) ->
  Forall (fun v => length v = n) (snd st) ->
  Forall (fun v => length v = n) (snd (fold_left (greville_step n) cs st))
  /\ length (snd (fold_left (greville_step n) cs st))
     = (length (snd st) + length cs)%nat.
Proof.
  induction cs as [|a cs IH]; intros st Hcs Hcols Hplus; cbn [fold_left].
  - split; [assumption|]. cbn [length]. lia.
  - apply Forall_cons_iff in Hcs as [Ha Hcs'].
    destruct (greville_step_shape n st a Ha Hcols Hplus) as (H1 & H2 & H3).
    destruct (IH _ Hcs' H1 H2) as [H4 H5].
    split; [assumption|]. rewrite H5, H3. cbn [length]. lia.
Qed.

Lemma pinv_mp_shape : pinv_shape pinv_mp.
Proof.
  intros A HA. unfold pinv_shape_at, wf, wf_rows, pinv_mp.
  cbn [nrows ncols rows].
  assert (Hcs : Forall (fun v => length v = nrows A)
                       (columns (ncols A) (rows A))).
  { apply Forall_forall. intros c Hc. unfold columns in Hc.
    apply in_map_iff in Hc as [j [<- _]]. rewrite length_column. apply HA. }
  destruct (greville_fold_shape (nrows A) (columns (ncols A) (rows A))
              ([], []) Hcs (Forall_nil _) (Forall_nil _)) as [H1 H2].
  rewrite length_columns in H2. cbn in H2. auto.
Qed.

(** ** Comparing outcomes by computation *)

Lemma Qc_eqb_eq (x y : Qc) : Qc_eqb x y = true -> x = y.
Proof.
  intros H. apply Qc_is_canon. now apply Qeq_bool_iff.
Qed.

Lemma list_eqb_eq {A} (eqb : A -> A -> bool) :
  (forall x y, eqb x y = true -> x = y) ->
  forall l1 l2, list_eqb eqb l1 l2 = true -> l1 = l2.
Proof.
  intros Heq l1. induction l1 as [|x l1 IH]; intros [|y l2] H;
    cbn in H; try discriminate; [reflexivity|].
  apply andb_prop in H as [Hx Hl]. f_equal; auto.
Qed.

Lemma matrix_eqb_eq A B : matrix_eqb A B = true -> A = B.
Proof.
  destruct A as [n c l], B as [n' c' l']. unfold matrix_eqb; cbn.
  intros H. apply andb_prop in H as [H Hl]. apply andb_prop in H as [Hn Hc].
  apply Nat.eqb_eq in Hn, Hc.
  apply (list_eqb_eq _ (list_eqb_eq _ Qc_eqb_eq)) in Hl. congruence.
Qed.

Lemma ndarray_eqb_eq a b : ndarray_eqb a b = true -> a = b.
Proof.
  destruct a, b; cbn; try discriminate; intros H; f_equal.
  - now apply Qc_eqb_eq.
  - now apply (list_eqb_eq _ Qc_eqb_eq).
  - now apply matrix_eqb_eq.
Qed.

Lemma outcome_eqb_eq o1 o2 : outcome_eqb o1 o2 = true -> o1 = o2.
Proof.
  destruct o1 as [r1 s1], o2 as [r2 s2]. unfold outcome_eqb; cbn [fst snd].
  intros H. apply andb_prop in H as [Hr Hs].
  apply (list_eqb_eq _ Qc_eqb_eq) in Hs. subst s2. f_equal.
  destruct r1 as [[u1 v1]|e1], r2 as [[u2 v2]|e2]; try discriminate.
  - apply andb_prop in Hr as [Hu Hv].
    apply ndarray_eqb_eq in Hu, Hv. congruence.
  - destruct e1, e2; try discriminate; reflexivity.
Qed.

Lemma wfb_wf A : wfb A = true -> wf A.
Proof.
  unfold wfb, wf, wf_rows. intros H. apply andb_prop in H as [Hl Hr].
  apply Nat.eqb_eq in Hl. split; [exact Hl|].
  apply Forall_forall. intros r Hin.
  rewrite forallb_forall in Hr. now apply Nat.eqb_eq, Hr.
Qed.

Lemma moore_penroseb_sound A G :
  moore_penroseb A G = true -> moore_penrose A G.
Proof.
  unfold moore_penroseb, moore_penrose. intros H.
  apply andb_prop in H as [H P4]. apply andb_prop in H as [H P3].
  apply andb_prop in H as [H P2]. apply andb_prop in H as [H P1].
  apply andb_prop in H as [H Hc]. apply andb_prop in H as [Hw Hr].
  apply Nat.eqb_eq in Hr, Hc. apply wfb_wf in Hw.
  apply matrix_eqb_eq in P1, P2, P3, P4. auto 10.
Qed.

(** The reference pseudo-inverse meets the Penrose equations on matrices
    of full rank and of deficient rank. *)
Example pinv_mp_tall : moore_penrose tall32 (pinv_mp tall32).
Proof. apply moore_penroseb_sound. vm_compute. reflexivity. Qed.

Example pinv_mp_rank_one : moore_penrose rank_one32 (pinv_mp rank_one32).
Proof. apply moore_penroseb_sound. vm_compute. reflexivity. Qed.

Example pinv_mp_wide : moore_penrose wide23 (pinv_mp wide23).
Proof. apply moore_penroseb_sound. vm_compute. reflexivity. Qed.

Example pinv_mp_zero : moore_penrose zero22 (pinv_mp zero22).
Proof. apply moore_penroseb_sound. vm_compute. reflexivity. Qed.

(** ** Linear algebra on lists *)

Lemma dotv_comm u : forall v, dotv u v = dotv v u.
Proof.
  induction u as [|a u IH]; intros [|b v]; cbn; try reflexivity.
  rewrite IH. ring.
Qed.

Lemma dotv_nil_r u : dotv u [] = 0.
Proof. now destruct u. Qed.

Lemma dotv_vsub_r r : forall x u,
  length x = length u -> dotv r (vsub x u) = dotv r x - dotv r u.
Proof.
  induction r as [|a r IH]; intros [|b x] [|c u] H; cbn in *;
    try discriminate; try ring.
  rewrite IH by congruence. ring.
Qed.

Lemma dotv_vadd_l u : forall w v,
  length u = length w -> dotv (vadd u w) v = dotv u v + dotv w v.
Proof.
  induction u as [|a u IH]; intros [|b w] [|c v] H; cbn in *;
    try discriminate; try ring.
  unfold vadd in IH. rewrite IH by congruence. ring.
Qed.

Lemma dotv_vscale_l c u : forall v, dotv (vscale c u) v = c * dotv u v.
Proof.
  induction u as [|a u IH]; intros [|b v]; cbn; try ring.
  unfold vscale in IH. rewrite IH. ring.
Qed.

Lemma dotv_zeros {A} (l : list A) v : dotv (map (fun _ => 0) l) v = 0.
Proof.
  revert v. induction l as [|x l IH]; intros [|b v]; cbn; try reflexivity.
  rewrite IH. ring.
Qed.

Lemma map_nth_self (g : vec) :
  map (fun j => nth j g 0) (seq 0 (length g)) = g.
Proof.
  rewrite (map_nth_seq (fun x => x) g 0). apply map_id.
Qed.

Lemma map_plus_vadd {A} (f h : A -> Qc) (l : list A) :
  map (fun j => f j + h j) l = vadd (map f l) (map h l).
Proof.
  induction l as [|x l IH]; cbn; [reflexivity|]. now rewrite IH.
Qed.

(** Exchanging the two sums of a product of three factors: a row times
    the columns of [G], then times [v], is the row times [G v]. *)
Lemma dotv_columns n G : forall a v,
  Forall (fun g => length g = n) G ->
  dotv (map (dotv a) (columns n G)) v = dotv a (matvec G v).
Proof.
  unfold columns. induction G as [|g G IH]; intros a v HG.
  - rewrite map_map.
    rewrite (map_ext (fun j => dotv a (column j [])) (fun _ => 0))
      by (intros j; apply dotv_nil_r).
    rewrite dotv_zeros. cbn. now rewrite dotv_nil_r.
  - apply Forall_cons_iff in HG as [Hg HG]. destruct a as [|a0 a].
    + rewrite map_map. cbn. apply dotv_zeros.
    + rewrite map_map. cbn [column map dotv matvec].
      rewrite (map_plus_vadd (fun j => a0 * nth j g 0)
                             (fun j => dotv a (column j G))).
      rewrite dotv_vadd_l by now rewrite !length_map.
      rewrite <- (map_map (fun j => nth j g 0) (Qcmult a0)).
      rewrite <- Hg, map_nth_self. fold (vscale a0 g).
      rewrite dotv_vscale_l.
      rewrite <- (map_map (fun j => column j G) (dotv a)).
      rewrite Hg. now rewrite IH.
Qed.

(** The rows of a product act as the composition. *)
Lemma matvec_matmul A B v :
  wf B ->
  matvec (rows (matmul A B)) v = matvec (rows A) (matvec (rows B) v).
Proof.
  intros [_ HB]. unfold matmul, matvec; cbn [rows]. rewrite map_map.
  apply map_ext. intros r. now apply dotv_columns.
Qed.

(** The columns act as the transpose. *)
Lemma dotv_matvec_columns n M u v :
  Forall (fun r => length r = n) M ->
  dotv v (matvec M u) = dotv (matvec (columns n M) v) u.
Proof.
  intros HM. rewrite <- (dotv_columns n M v u HM). f_equal.
  unfold matvec. apply map_ext. intros c. apply dotv_comm.
Qed.

Lemma matvec_vsub M x u :
  length x = length u ->
  matvec M (vsub x u) = vsub (matvec M x) (matvec M u).
Proof.
  intros H. induction M as [|r M IH]; cbn; [reflexivity|].
  rewrite dotv_vsub_r by assumption. unfold matvec in IH. now rewrite IH.
Qed.

Lemma vsub_split a : forall b c,
  length a = length b -> length b = length c ->
  vsub a c = vadd (vsub a b) (vsub b c).
Proof.
  induction a as [|x a IH]; intros [|y b] [|z c] H1 H2; cbn in *;
    try discriminate; [reflexivity|].
  f_equal; [ring | apply IH; congruence].
Qed.

Lemma sumsq_vadd d : forall e,
  length d = length e ->
  sumsq (vadd d e) = sumsq d + (1 + 1) * dotv d e + sumsq e.
Proof.
  unfold sumsq. induction d as [|x d IH]; intros [|y e] H; cbn in *;
    try discriminate; [ring|].
  change (vzip Qcplus d e) with (vadd d e).
  rewrite IH by congruence. ring.
Qed.

Lemma length_vsub u v :
  length u = length v -> length (vsub u v) = length u.
Proof.
  intros H. unfold vsub. rewrite length_vzip, <- H. apply Nat.min_id.
Qed.

(** ** The pseudo-inverse solves the least-squares problem *)

Section LeastSquares.

Variables A G : matrix.
Hypothesis A_wf : wf A.
Hypothesis G_pinv : moore_penrose A G.

(** The residual of the solution is orthogonal to the range of [A]. *)
Lemma residual_orthogonal t y :
  length t = nrows A ->
  dotv (matvec (rows A) y)
       (vsub (matvec (rows A) (matvec (rows G) t)) t) = 0.
Proof.
  intros Ht.
  destruct G_pinv as (HG & HGr & HGc & P1 & _ & P3 & _).
  set (P := matmul A G) in *.
  assert (HPt : matvec (rows A) (matvec (rows G) t) = matvec (rows P) t)
    by (symmetry; now apply matvec_matmul).
  assert (HProws : Forall (fun r => length r = ncols P) (rows P)).
  { apply Forall_forall. intros r Hr. unfold P, matmul in Hr; cbn in Hr.
    apply in_map_iff in Hr as [a [<- _]].
    now rewrite length_map, length_columns. }
  rewrite HPt, dotv_vsub_r.
  2:{ rewrite length_matvec. unfold P; cbn [matmul rows].
      rewrite length_map, Ht. apply A_wf. }
  rewrite (dotv_matvec_columns (ncols P) (rows P) t _ HProws).
  replace (columns (ncols P) (rows P)) with (rows P)
    by (now rewrite <- P3 at 1).
  rewrite <- (matvec_matmul P A y A_wf), P1.
  rewrite (dotv_comm _ t). ring.
Qed.

(** Among all [x], [G t] makes the sum of the squared residuals of
    [A x = t] least. *)
Lemma pinv_minimises t x :
  length t = nrows A -> length x = ncols A ->
  sumsq (vsub (matvec (rows A) (matvec (rows G) t)) t)
  <= sumsq (vsub (matvec (rows A) x) t).
Proof.
  intros Ht Hx.
  pose proof (residual_orthogonal t (vsub x (matvec (rows G) t)) Ht)
    as Horth.
  set (u := matvec (rows G) t) in *.
  assert (Hu : length u = length x).
  { unfold u. rewrite length_matvec, Hx.
    destruct G_pinv as ([-> _] & -> & _). reflexivity. }
  assert (HAt : forall z, length (matvec (rows A) z) = length t).
  { intros z. rewrite length_matvec, Ht. apply A_wf. }
  rewrite (vsub_split (matvec (rows A) x) (matvec (rows A) u) t)
    by (rewrite ?HAt; reflexivity).
  rewrite <- matvec_vsub by (symmetry; exact Hu).
  rewrite sumsq_vadd.
  2:{ rewrite length_matvec, length_vsub, length_matvec by apply HAt.
      reflexivity. }
  rewrite Horth.
  replace (sumsq (matvec (rows A) (vsub x u)) + (1 + 1) * 0
           + sumsq (vsub (matvec (rows A) u) t))
    with (sumsq (vsub (matvec (rows A) u) t)
          + sumsq (matvec (rows A) (vsub x u))) by ring.
  apply Qc_le_add_nonneg, sumsq_nonneg.
Qed.

End LeastSquares.

(** ** Claims about the run as a whole *)

(** C6.  Calling [als] a second time with the same arguments, in the world
    that the first call left, returns the same value and prints the same
    numbers again: the outcome depends on nothing but the arguments. *)
Theorem als_deterministic pinv ratings users items reps w :
  let first := als pinv ratings users items reps w in
  let second := als pinv ratings users items reps (snd first) in
  fst second = fst first
  /\ exists out, snd first = emit w out /\ snd second = emit (snd first) out.
Proof.
  cbn zeta.
  destruct (tame_als pinv ratings items users reps w w)
    as (r & out & _ & E & _); [split; reflexivity|].
  destruct (tame_als pinv ratings items users reps w (emit w out))
    as (r' & out' & _ & E1 & E2); [split; reflexivity|].
  rewrite E in E1. injection E1 as <- E1.
  apply app_inv_head in E1. subst out'.
  rewrite E. cbn [fst snd]. rewrite E2. cbn [fst snd]. eauto.
Qed.


(** C9.  The call leaves the caller's arrays as they were: the store after
    the call is the store before it, at [ratings] (hence also through the
    view [ratings.T]) and everywhere else. *)
Theorem als_preserves_ratings pinv ratings users items reps w :
  let w' := snd (als pinv ratings users items reps w) in
  heap w' ratings = heap w ratings
  /\ view_value (Transposed ratings) w' = view_value (Transposed ratings) w
  /\ heap w' = heap w.
Proof.
  cbn zeta.
  destruct (tame_als pinv ratings items users reps w w)
    as (r & out & _ & E & _); [split; reflexivity|].
  rewrite E. cbn. auto.
Qed.

(** C10.  The [users] argument is never read: two calls that differ in the
    array passed as [users] (another reference, other contents), on stores
    that hold the same [ratings] and [items] with the same output so far,
    return the same value and print the same numbers. *)
Theorem als_ignores_users pinv ratings users users' items reps w w' :
  same_inputs ratings items w w' ->
  stdout w = stdout w' ->
  fst (als pinv ratings users items reps w)
  = fst (als pinv ratings users' items reps w')
  /\ stdout (snd (als pinv ratings users items reps w))
     = stdout (snd (als pinv ratings users' items reps w')).
Proof.
  intros Hw Hout.
  destruct (tame_als pinv ratings items users reps w w' Hw)
    as (r & out & _ & E & E').
  change (als pinv ratings users' items reps w')
    with (als pinv ratings users items reps w').
  rewrite E, E'. cbn. now rewrite Hout.
Qed.

Lemma als_ignores_users_witness :
  same_inputs 0 2 scenario (World (store3 ratings33 threes31 ones31) [])
  /\ stdout scenario = stdout (World (store3 ratings33 threes31 ones31) [])
  /\ (fst (als pinv_mp 0 1 2 3 scenario)
      = fst (als pinv_mp 0 5 2 3 (World (store3 ratings33 threes31 ones31) []))
      /\ stdout (snd (als pinv_mp 0 1 2 3 scenario))
         = stdout (snd (als pinv_mp 0 5 2 3
                          (World (store3 ratings33 threes31 ones31) [])))).
Proof.
  split; [split; reflexivity|].
  split; [reflexivity|].
  apply als_ignores_users; [split; reflexivity | reflexivity].
Defined.

(** ** Claims about shapes and iteration counts *)

(** C8, the counterexample: with an iteration count of 0 no pass runs, and
    the [return] finds [new_users] unbound. *)
Lemma als_zero_iterations_raises :
  outcome_of (als pinv_mp 0 1 2 0) scenario = (Raise UnboundLocalError, []).
Proof. reflexivity. Qed.

(** C8, as amended.  With an iteration count of 1, a square ratings matrix
    and item factors with one row per column of the ratings, the call
    returns the outcome of a single least-squares pass: the user factors
    are [pinv(items)] applied to each row of the ratings, the item factors
    are the pseudo-inverse of those user factors applied to each column of
    the ratings, and one error is printed. *)
Theorem als_single_pass pinv ratings users items w :
  pinv_shape pinv ->
  wf (heap w ratings) -> wf (heap w items) ->
  nrows (heap w ratings) = ncols (heap w ratings) ->
  nrows (heap w items) = ncols (heap w ratings) ->
  exists e,
    sq_error (heap w ratings)
      (stack (pass_users pinv (heap w ratings) (heap w items)))
      (stack (single_pass_items pinv (heap w ratings) (heap w items)))
    = Ok e
    /\ als pinv ratings users items 1 w
       = (Ok (stack (pass_users pinv (heap w ratings) (heap w items)),
              stack (single_pass_items pinv (heap w ratings) (heap w items))),
          emit w [e]).
Proof.
  intros Hp HR HV0 Hsq Hrows.
  rewrite <- (pass_items_square pinv _ _ Hsq).
  destruct (pass_iteration pinv ratings w _ (heap w items) eq_refl HR Hrows
              (Hp _ HV0)
              (Hp _ (wf_pass_users_matrix pinv _ _ HR (Hp _ HV0)))
              (Locals (Caller (Whole items)) None None) eq_refl)
    as (e & He & Hrun); [lia|now left|].
  exists e. split; [exact He|].
  unfold als. change (Z.to_nat 1) with 1%nat. cbn [loop].
  unfold bind at 1 2. rewrite Hrun. reflexivity.
Qed.

Lemma als_single_pass_witness :
  pinv_shape pinv_mp
  /\ wf (heap scenario 0) /\ wf (heap scenario 2)
  /\ nrows (heap scenario 0) = ncols (heap scenario 0)
  /\ nrows (heap scenario 2) = ncols (heap scenario 0)
  /\ exists e,
       sq_error (heap scenario 0)
         (stack (pass_users pinv_mp (heap scenario 0) (heap scenario 2)))
         (stack (single_pass_items pinv_mp (heap scenario 0)
                                   (heap scenario 2)))
       = Ok e
       /\ als pinv_mp 0 1 2 1 scenario
          = (Ok (stack (pass_users pinv_mp (heap scenario 0)
                                   (heap scenario 2)),
                 stack (single_pass_items pinv_mp (heap scenario 0)
                                          (heap scenario 2))),
             emit scenario [e]).
Proof.
  assert (H33 : wf (heap scenario 0)) by (apply wfb_wf; reflexivity).
  assert (H31 : wf (heap scenario 2)) by (apply wfb_wf; reflexivity).
  split; [exact pinv_mp_shape|].
  split; [exact H33|]. split; [exact H31|].
  split; [reflexivity|]. split; [reflexivity|].
  exact (als_single_pass pinv_mp 0 1 2 scenario pinv_mp_shape H33 H31
                         eq_refl eq_refl).
Defined.

(** ** The shapes that [als] returns

    The specification (and the comment above [als] in the notebook) wants
    user factors m x k and item factors r x k.  The theorems below say
    what the code does for every well-shaped input: on a square ratings
    matrix it returns those shapes after any number of passes; with more
    users than items it raises IndexError; with fewer users than items,
    but more than one, it raises ValueError; with a single user one pass
    returns item factors of a single row. *)

Lemma wf_next_items pinv R V :
  pinv_shape pinv -> wf R -> wf V -> (nrows R <= ncols R)%nat ->
  wf (next_items pinv R V).
Proof.
  intros Hp HR HV Hle. split; cbn.
  - unfold pass_items.
    rewrite length_map, length_firstn, length_columns. lia.
  - apply Forall_forall. intros u Hu. unfold pass_items in Hu.
    apply in_map_iff in Hu as [t [<- _]]. rewrite length_matvec.
    destruct (Hp _ (wf_pass_users_matrix pinv R V HR (Hp V HV)))
      as ([-> _] & -> & _).
    reflexivity.
Qed.

Lemma items_after_succ pinv R n : forall V,
  items_after pinv R (S n) V = next_items pinv R (items_after pinv R n V).
Proof.
  induction n as [|n IH]; intros V; [reflexivity|].
  change (items_after pinv R (S (S n)) V)
    with (items_after pinv R (S n) (next_items pinv R V)).
  now rewrite IH.
Qed.

Lemma loop_square pinv ratings R :
  pinv_shape pinv -> wf R -> nrows R = ncols R -> (1 <= nrows R)%nat ->
  forall n st w V,
    heap w ratings = R ->
    value_of (items_var st) w = Arr2 V -> wf V -> nrows V = ncols R ->
    exists st' out,
      loop pinv n (Whole ratings) (Transposed ratings) st w
      = (Ok st', emit w out)
      /\ length out = n
      /\ value_of (items_var st') (emit w out)
         = Arr2 (items_after pinv R n V).
Proof.
  intros Hp HR Hsq Hm n.
  induction n as [|n IH]; intros st w V Hw Hst HV Hrows.
  - exists st, []. rewrite emit_nil. auto.
  - cbn [loop items_after]. unfold bind.
    destruct (pass_iteration pinv ratings w R V Hw HR Hrows (Hp V HV)
                (Hp _ (wf_pass_users_matrix pinv R V HR (Hp V HV)))
                st Hst) as (e & _ & Hrun); [lia|now left|].
    rewrite Hrun.
    destruct (IH (Locals (Fresh (stack (pass_items pinv R V)))
                         (Some (stack (pass_users pinv R V)))
                         (Some (stack (pass_items pinv R V))))
                 (emit w [e]) (next_items pinv R V))
      as (st' & out & Hloop & Hlen & Hval).
    + exact Hw.
    + cbn [items_var value_of].
      apply (stack_pass_items pinv R V Hrows
               (Hp _ (wf_pass_users_matrix pinv R V HR (Hp V HV)))); lia.
    + apply wf_next_items; auto. lia.
    + cbn. lia.
    + exists st', (e :: out). rewrite Hloop, emit_emit in *. cbn [app].
      repeat split; [cbn; lia|exact Hval].
Qed.

(** X1.  On a square ratings matrix with at least one user, and item
    factors with one row per column of the ratings, a call with
    [reps >= 1] returns, prints one error per pass, and returns user
    factors m x k and item factors r x k (k the number of columns of the
    initial item factors): the user factors of the last pass and the item
    factors after [reps] passes. *)
Theorem als_square_run pinv ratings users items reps w :
  pinv_shape pinv ->
  wf (heap w ratings) -> wf (heap w items) ->
  nrows (heap w ratings) = ncols (heap w ratings) ->
  nrows (heap w items) = ncols (heap w ratings) ->
  (1 <= nrows (heap w ratings))%nat ->
  (1 <= reps)%Z ->
  exists U V out,
    als pinv ratings users items reps w = (Ok (Arr2 U, Arr2 V), emit w out)
    /\ length out = Z.to_nat reps
    /\ U = pass_users_matrix pinv (heap w ratings)
             (items_after pinv (heap w ratings) (Z.to_nat (reps - 1))
                          (heap w items))
    /\ V = items_after pinv (heap w ratings) (Z.to_nat reps) (heap w items)
    /\ wf U /\ nrows U = nrows (heap w ratings)
    /\ ncols U = ncols (heap w items)
    /\ wf V /\ nrows V = ncols (heap w ratings)
    /\ ncols V = ncols (heap w items).
Proof.
  intros Hp HR HV0 Hsq Hrows Hm Hreps.
  set (R := heap w ratings) in *. set (V0 := heap w items) in *.
  (* shapes along the iterates *)
  assert (Hiter : forall n V, wf V -> nrows V = ncols R ->
            wf (items_after pinv R n V)
            /\ nrows (items_after pinv R n V) = ncols R
            /\ ncols (items_after pinv R n V) = ncols V).
  { induction n as [|n IH]; intros V HV HVr; cbn [items_after]; [auto|].
    destruct (IH (next_items pinv R V)) as (H1 & H2 & H3).
    - apply wf_next_items; auto. lia.
    - cbn. lia.
    - auto. }
  assert (Hals : als pinv ratings users items reps w
                 = bind (loop pinv (Z.to_nat (reps - 1)) (Whole ratings)
                              (Transposed ratings)
                              (Locals (Caller (Whole items)) None None))
                        (fun st' => final_iteration pinv (Whole ratings)
                                      (Transposed ratings) (items_var st')) w).
  { unfold als.
    replace (Z.to_nat reps) with (S (Z.to_nat (reps - 1))) by lia.
    etransitivity; [|apply loop_then_return].
    apply bind_ext. reflexivity. }
  rewrite Hals. clear Hals.
  destruct (loop_square pinv ratings R Hp HR Hsq Hm (Z.to_nat (reps - 1))
              (Locals (Caller (Whole items)) None None) w V0 eq_refl eq_refl
              HV0 Hrows) as (st & out & Hloop & Hlen & Hval).
  unfold bind. rewrite Hloop.
  destruct (Hiter (Z.to_nat (reps - 1)) V0 HV0 Hrows) as (HVn & HVnr & HVnc).
  set (Vn := items_after pinv R (Z.to_nat (reps - 1)) V0) in *.
  assert (HUm : pinv_shape_at pinv (pass_users_matrix pinv R Vn))
    by (apply Hp, wf_pass_users_matrix; auto).
  destruct (pass_iteration pinv ratings (emit w out) R Vn eq_refl HR HVnr
              (Hp Vn HVn) HUm st Hval) as (e & _ & Hrun); [lia|now left|].
  unfold iteration, bind in Hrun. unfold final_iteration, bind.
  destruct (update_users pinv (Whole ratings) (items_var st) (emit w out))
    as [[u|x] w1]; [|discriminate].
  destruct (update_items pinv (Whole ratings) (Transposed ratings) u w1)
    as [[v|x] w2]; [|discriminate].
  destruct (report (Whole ratings) u v w2) as [[[]|x] w3]; [|discriminate].
  unfold ret in *. injection Hrun as Hv Hu _ Hw3. subst u v w3.
  rewrite (stack_pass_users pinv R Vn HR HVnr (Hp Vn HVn)) by lia.
  rewrite (stack_pass_items pinv R Vn HVnr HUm) by lia.
  exists (pass_users_matrix pinv R Vn), (next_items pinv R Vn), (out ++ [e]).
  rewrite emit_emit.
  assert (Hnext : next_items pinv R Vn = items_after pinv R (Z.to_nat reps) V0).
  { replace (Z.to_nat reps) with (S (Z.to_nat (reps - 1))) by lia.
    symmetry. apply items_after_succ. }
  repeat split.
  - rewrite length_app, Hlen. cbn. lia.
  - exact Hnext.
  - apply (wf_pass_users_matrix pinv R Vn HR (Hp Vn HVn)).
  - apply (wf_pass_users_matrix pinv R Vn HR (Hp Vn HVn)).
  - cbn. unfold Vn. exact HVnc.
  - apply wf_next_items; auto. lia.
  - apply wf_next_items; auto. lia.
  - cbn. lia.
  - cbn. exact HVnc.
Qed.

(** X2.  With more users than items the item loop of the first pass asks
    [ratings.T] for a row it does not have: the call raises IndexError,
    and nothing has been printed. *)
Theorem als_more_users_than_items pinv ratings users items reps w :
  pinv_shape pinv ->
  wf (heap w ratings) -> wf (heap w items) ->
  nrows (heap w items) = ncols (heap w ratings) ->
  (ncols (heap w ratings) < nrows (heap w ratings))%nat ->
  (1 <= reps)%Z ->
  als pinv ratings users items reps w = (Raise IndexError, w).
Proof.
  intros Hp HR HV0 Hrows Hlt Hreps. unfold als.
  replace (Z.to_nat reps) with (S (Z.to_nat (reps - 1))) by lia.
  cbn [loop]. unfold bind at 1 2.
  rewrite (pass_iteration_index_error pinv ratings w _ (heap w items)
             eq_refl HR Hrows (Hp _ HV0)
             (Hp _ (wf_pass_users_matrix pinv _ _ HR (Hp _ HV0)))
             (Locals (Caller (Whole items)) None None) eq_refl Hlt).
  reflexivity.
Qed.

(** X3.  With fewer users than items, but more than one user, both
    half-steps of the first pass succeed and [ratings - guess] cannot be
    broadcast: the call raises ValueError, and nothing has been
    printed. *)
Theorem als_fewer_users_than_items pinv ratings users items reps w :
  pinv_shape pinv ->
  wf (heap w ratings) -> wf (heap w items) ->
  nrows (heap w items) = ncols (heap w ratings) ->
  (1 < nrows (heap w ratings) < ncols (heap w ratings))%nat ->
  (1 <= reps)%Z ->
  als pinv ratings users items reps w = (Raise ValueError, w).
Proof.
  intros Hp HR HV0 Hrows Hlt Hreps. unfold als.
  replace (Z.to_nat reps) with (S (Z.to_nat (reps - 1))) by lia.
  cbn [loop]. unfold bind at 1 2.
  rewrite (pass_iteration_broadcast_error pinv ratings w _ (heap w items)
             eq_refl HR Hrows (Hp _ HV0)
             (Hp _ (wf_pass_users_matrix pinv _ _ HR (Hp _ HV0)))
             (Locals (Caller (Whole items)) None None) eq_refl Hlt).
  reflexivity.
Qed.

(** X4.  With a single user one pass succeeds, and the item factors it
    returns have a single row, however many items there are. *)
Theorem als_single_user pinv ratings users items w :
  pinv_shape pinv ->
  wf (heap w ratings) -> wf (heap w items) ->
  nrows (heap w items) = ncols (heap w ratings) ->
  nrows (heap w ratings) = 1%nat ->
  (1 <= ncols (heap w ratings))%nat ->
  exists e,
    als pinv ratings users items 1 w
    = (Ok (Arr2 (pass_users_matrix pinv (heap w ratings) (heap w items)),
           Arr2 (next_items pinv (heap w ratings) (heap w items))),
       emit w [e])
    /\ nrows (next_items pinv (heap w ratings) (heap w items)) = 1%nat.
Proof.
  intros Hp HR HV0 Hrows Hm Hr.
  assert (HUm : pinv_shape_at pinv
                  (pass_users_matrix pinv (heap w ratings) (heap w items)))
    by (apply Hp, wf_pass_users_matrix; auto).
  destruct (pass_iteration pinv ratings w _ (heap w items) eq_refl HR Hrows
              (Hp _ HV0) HUm (Locals (Caller (Whole items)) None None) eq_refl)
    as (e & _ & Hrun); [lia|right; lia|].
  exists e. split; [|exact Hm].
  unfold als. change (Z.to_nat 1) with 1%nat. cbn [loop].
  unfold bind at 1 2. rewrite Hrun. cbn [return_factors new_users_var
    new_items_var ret bind].
  rewrite (stack_pass_users pinv _ _ HR Hrows (Hp _ HV0)) by lia.
  rewrite (stack_pass_items pinv _ _ Hrows HUm) by lia.
  reflexivity.
Qed.

(** C1, at the failing input.  With one user and two items (ratings 1 x 2,
    item factors 2 x 1) the item loop runs [len(ratings) = 1] times: the
    call returns item factors with one row, not with one row per column
    of the ratings. *)
Theorem als_item_rows_follow_user_count :
  outcome_of (als pinv_mp 0 1 2 1) one_user_two_items
  = (Ok (Arr2 (of_ints [[3]]%Z), Arr2 (of_ints [[1]]%Z)), [qz 0])
  /\ nrows (of_ints [[1]]%Z) <> ncols (heap one_user_two_items 0).
Proof.
  split; [|discriminate].
  apply outcome_eqb_eq. vm_compute. reflexivity.
Qed.

(** With more users than items the same loop bound runs past the last
    column: two users and one item end in IndexError. *)
Lemma als_two_users_one_item_raises :
  outcome_of (als pinv_mp 0 1 2 1) two_users_one_item = (Raise IndexError, []).
Proof. apply outcome_eqb_eq. vm_compute. reflexivity. Qed.

(** A second pass after the one-user run fails: the item factors it left
    have one row, the ratings have two columns. *)
Lemma als_one_user_second_pass_raises :
  outcome_of (als pinv_mp 0 1 2 2) one_user_two_items
  = (Raise ValueError, [qz 0]).
Proof. apply outcome_eqb_eq. vm_compute. reflexivity. Qed.

(** C2, the counterexample: user factors of the wrong shape are not
    detected; the call returns as if they were well-shaped. *)
Lemma als_accepts_misshapen_users :
  shapes_match (heap scenario_bad_users 0) (heap scenario_bad_users 1)
               (heap scenario_bad_users 2) = false
  /\ outcome_of (als pinv_mp 0 1 2 1) scenario_bad_users
     = (Ok (Arr2 threes31, Arr2 ones31), [qz 0]).
Proof.
  split; [reflexivity|].
  apply outcome_eqb_eq. vm_compute. reflexivity.
Qed.

Lemma solve_value_mismatch pinv A T i :
  ncols (pinv A) <> ncols T -> wf T -> (i < nrows T)%nat ->
  solve_value pinv (Arr2 A) T i = Raise ValueError.
Proof.
  intros Hc HT Hi. unfold solve_value, np_linalg_pinv, np_getitem, rbind.
  apply Nat.ltb_lt in Hi as Hi'. rewrite Hi'. unfold dot_mv.
  rewrite (wf_rows_nth _ _ _ _ HT Hi).
  apply Nat.eqb_neq in Hc. now rewrite Hc.
Qed.

(** C2, as amended.  [als] validates no shape.  What it does meet is the
    mismatch between the item factors and the ratings: with at least one
    pass to run and at least one row of ratings, item factors whose
    number of rows differs from the number of columns of the ratings make
    the call raise ValueError, with nothing printed, nothing returned and
    the store untouched, whatever is passed as [users]. *)
Theorem als_items_mismatch_raises pinv ratings users items reps w :
  (1 <= reps)%Z ->
  wf (heap w ratings) ->
  (1 <= nrows (heap w ratings))%nat ->
  ncols (pinv (heap w items)) = nrows (heap w items) ->
  nrows (heap w items) <> ncols (heap w ratings) ->
  als pinv ratings users items reps w = (Raise ValueError, w).
Proof.
  intros Hreps HR Hm Hp Hneq. unfold als.
  replace (Z.to_nat reps) with (S (Z.to_nat (reps - 1))) by lia.
  cbn [loop]. unfold bind at 1 2. unfold iteration. unfold bind at 1.
  rewrite update_users_run. cbn [items_var value_of view_value].
  destruct (nrows (heap w ratings)) as [|m] eqn:Em; [lia|].
  cbn [seq]. rewrite (collect_raise_first _ _ _ ValueError); [reflexivity|].
  apply solve_value_mismatch; [congruence|exact HR|lia].
Qed.

Lemma als_items_mismatch_raises_witness :
  (1 <= 1)%Z
  /\ wf (heap scenario_bad_items 0)
  /\ (1 <= nrows (heap scenario_bad_items 0))%nat
  /\ ncols (pinv_mp (heap scenario_bad_items 2))
     = nrows (heap scenario_bad_items 2)
  /\ nrows (heap scenario_bad_items 2) <> ncols (heap scenario_bad_items 0)
  /\ als pinv_mp 0 1 2 1 scenario_bad_items
     = (Raise ValueError, scenario_bad_items).
Proof.
  assert (H33 : wf (heap scenario_bad_items 0))
    by (split; [reflexivity|repeat constructor]).
  assert (Hneq : nrows (heap scenario_bad_items 2)
                 <> ncols (heap scenario_bad_items 0)) by (cbn; lia).
  split; [lia|]. split; [exact H33|]. split; [cbn; lia|].
  split; [reflexivity|]. split; [exact Hneq|].
  apply als_items_mismatch_raises;
    first [lia | exact H33 | exact Hneq | reflexivity | cbn; lia].
Defined.

(** ** Claims about the least-squares solves *)




(** The Penrose equations determine the pseudo-inverse of a non-zero
    constant column of three entries. *)
Lemma pinv_constant_column (c : Qc) (G : matrix) :
  c <> 0 ->
  moore_penrose (Mat 3 1 [[c]; [c]; [c]]) G ->
  G = Mat 1 3 [[/ ((1 + 1 + 1) * c); / ((1 + 1 + 1) * c); / ((1 + 1 + 1) * c)]].
Proof.
  intros Hc (HG & Hr & Hk & P1 & _ & P3 & _).
  destruct G as [nr nc l]. cbn [nrows ncols] in Hr, Hk. subst nr nc.
  destruct HG as [Hlen Hrow]. cbn [nrows ncols rows] in Hlen, Hrow.
  destruct l as [|g [|g' l]]; try discriminate.
  apply Forall_cons_iff in Hrow as [Hg _].
  destruct g as [|a [|b [|d [|z g]]]]; try discriminate.
  pose proof (f_equal (fun M => nth 1 (nth 0 (rows M) []) 0) P3) as Eab.
  pose proof (f_equal (fun M => nth 2 (nth 0 (rows M) []) 0) P3) as Ead.
  apply (f_equal (fun M => nth 0 (nth 0 (rows M) []) 0)) in P1.
  cbv [matmul mT columns column nrows ncols rows map seq nth dotv]
    in P1, Eab, Ead.
  assert (Hab : a = b).
  { replace a with ((c * a + 0) / c) by (field; exact Hc).
    rewrite Eab. field; exact Hc. }
  assert (Had : a = d).
  { replace a with ((c * a + 0) / c) by (field; exact Hc).
    rewrite Ead. field; exact Hc. }
  subst b d.
  assert (Ha : a = / ((1 + 1 + 1) * c)).
  { replace a with
      (((c * a + 0) * c + ((c * a + 0) * c + ((c * a + 0) * c + 0)))
       / ((1 + 1 + 1) * c * c)).
    - rewrite P1. field. split; [exact Hc|]. intro E; discriminate E.
    - field. split; [exact Hc|]. intro E; discriminate E. }
  rewrite <- Ha. reflexivity.
Qed.

Lemma pinv_ones31 pinv :
  moore_penrose ones31 (pinv ones31) -> pinv ones31 = thirds13.
Proof.
  intros H. rewrite (pinv_constant_column 1 (pinv ones31)).
  - apply matrix_eqb_eq. vm_compute. reflexivity.
  - intro E; discriminate E.
  - exact H.
Qed.

Lemma pinv_threes31 pinv :
  moore_penrose threes31 (pinv threes31) -> pinv threes31 = ninths13.
Proof.
  intros H. rewrite (pinv_constant_column (qz 3) (pinv threes31)).
  - apply matrix_eqb_eq. vm_compute. reflexivity.
  - intro E; discriminate E.
  - exact H.
Qed.

Lemma sq_error_scenario :
  sq_error ratings33 (Arr2 threes31) (Arr2 ones31) = Ok 0.
Proof.
  destruct (sq_error ratings33 (Arr2 threes31) (Arr2 ones31)) as [e|x] eqn:E;
    vm_compute in E; [|discriminate E].
  injection E as <-. apply (f_equal Ok). apply Qc_is_canon. reflexivity.
Qed.

(** The scenario of the specification in exact arithmetic: ratings 3 x 3
    of 3s, one latent dimension, item factors of 1s, one pass.  For a
    pseudo-inverse that satisfies the Penrose equations at the two factor
    matrices met on the way, the call returns user factors of 3s and item
    factors of 1s, whose product is the ratings matrix, and prints the
    error 0.  The equations force the entries 1/3 and 1/9, which binary
    floating point does not hold: this is a statement about the exact
    pseudo-inverse, not about what [np.linalg.pinv] returns. *)
Theorem als_scenario_exact pinv ratings users items w :
  heap w ratings = ratings33 ->
  heap w items = ones31 ->
  moore_penrose ones31 (pinv ones31) ->
  moore_penrose threes31 (pinv threes31) ->
  als pinv ratings users items 1 w
  = (Ok (Arr2 threes31, Arr2 ones31), emit w [0])
  /\ np_dot (Arr2 threes31) (np_T (Arr2 ones31)) = Ok (Arr2 ratings33).
Proof.
  intros Hr Hi Hp1 Hp3.
  pose proof (pinv_ones31 pinv Hp1) as E1.
  pose proof (pinv_threes31 pinv Hp3) as E3.
  split.
  - assert (Hs1 : pinv_shape_at pinv ones31).
    { unfold pinv_shape_at. rewrite E1.
      split; [apply wfb_wf|split]; reflexivity. }
    assert (EU : pass_users_matrix pinv ratings33 ones31 = threes31).
    { unfold pass_users_matrix, pass_users. rewrite E1.
      apply matrix_eqb_eq. vm_compute. reflexivity. }
    assert (Hs3 : pinv_shape_at pinv (pass_users_matrix pinv ratings33 ones31)).
    { unfold pinv_shape_at. rewrite EU, E3.
      split; [apply wfb_wf|split]; reflexivity. }
    assert (ES1 : stack (pass_users pinv ratings33 ones31) = Arr2 threes31).
    { unfold pass_users. rewrite E1.
      apply ndarray_eqb_eq. vm_compute. reflexivity. }
    assert (ES2 : stack (pass_items pinv ratings33 ones31) = Arr2 ones31).
    { unfold pass_items. rewrite EU, E3.
      apply ndarray_eqb_eq. vm_compute. reflexivity. }
    assert (Hst : value_of (Caller (Whole items)) w = Arr2 ones31)
      by (cbn; now rewrite Hi).
    destruct (pass_iteration pinv ratings w ratings33 ones31 Hr
                (wfb_wf ratings33 eq_refl) eq_refl Hs1 Hs3
                (Locals (Caller (Whole items)) None None) Hst)
      as (e & He & Hrun); [cbn; lia|now left|].
    rewrite ES1, ES2 in He, Hrun.
    rewrite sq_error_scenario in He. injection He as <-.
    unfold als. change (Z.to_nat 1) with 1%nat. cbn [loop].
    unfold bind at 1 2. rewrite Hrun. reflexivity.
  - cbn [np_T np_dot].
    change (ncols threes31 =? nrows (mT ones31))%nat with true.
    cbv iota. apply (f_equal (fun M => Ok (Arr2 M))).
    apply matrix_eqb_eq. vm_compute. reflexivity.
Qed.

Lemma als_scenario_exact_witness :
  heap scenario 0 = ratings33
  /\ heap scenario 2 = ones31
  /\ moore_penrose ones31 (pinv_mp ones31)
  /\ moore_penrose threes31 (pinv_mp threes31)
  /\ als pinv_mp 0 1 2 1 scenario
     = (Ok (Arr2 threes31, Arr2 ones31), emit scenario [0])
  /\ np_dot (Arr2 threes31) (np_T (Arr2 ones31)) = Ok (Arr2 ratings33).
Proof.
  assert (H1 : moore_penrose ones31 (pinv_mp ones31))
    by (apply moore_penroseb_sound; vm_compute; reflexivity).
  assert (H3 : moore_penrose threes31 (pinv_mp threes31))
    by (apply moore_penroseb_sound; vm_compute; reflexivity).
  split; [reflexivity|]. split; [reflexivity|].
  split; [exact H1|]. split; [exact H3|].
  exact (als_scenario_exact pinv_mp 0 1 2 scenario eq_refl eq_refl H1 H3).
Defined.

(** * Further properties of the notebooks *)

(** ** [als] on every shape of input *)

Lemma als_square_run_witness :
  pinv_shape pinv_mp
  /\ wf (heap scenario 0) /\ wf (heap scenario 2)
  /\ nrows (heap scenario 0) = ncols (heap scenario 0)
  /\ nrows (heap scenario 2) = ncols (heap scenario 0)
  /\ (1 <= nrows (heap scenario 0))%nat
  /\ (1 <= 2)%Z
  /\ exists U V out,
       als pinv_mp 0 1 2 2 scenario = (Ok (Arr2 U, Arr2 V), emit scenario out)
       /\ length out = Z.to_nat 2
       /\ U = pass_users_matrix pinv_mp (heap scenario 0)
                (items_after pinv_mp (heap scenario 0) (Z.to_nat (2 - 1))
                             (heap scenario 2))
       /\ V = items_after pinv_mp (heap scenario 0) (Z.to_nat 2)
                          (heap scenario 2)
       /\ wf U /\ nrows U = nrows (heap scenario 0)
       /\ ncols U = ncols (heap scenario 2)
       /\ wf V /\ nrows V = ncols (heap scenario 0)
       /\ ncols V = ncols (heap scenario 2).
Proof.
  assert (H33 : wf (heap scenario 0)) by (apply wfb_wf; reflexivity).
  assert (H31 : wf (heap scenario 2)) by (apply wfb_wf; reflexivity).
  split; [exact pinv_mp_shape|]. split; [exact H33|]. split; [exact H31|].
  split; [reflexivity|]. split; [reflexivity|].
  split; [cbn; lia|]. split; [lia|].
  apply (als_square_run pinv_mp 0 1 2 2 scenario pinv_mp_shape H33 H31
                        eq_refl eq_refl); [cbn; lia|lia].
Defined.

Lemma als_more_users_than_items_witness :
  pinv_shape pinv_mp
  /\ wf (heap two_users_one_item 0) /\ wf (heap two_users_one_item 2)
  /\ nrows (heap two_users_one_item 2) = ncols (heap two_users_one_item 0)
  /\ (ncols (heap two_users_one_item 0)
      < nrows (heap two_users_one_item 0))%nat
  /\ (1 <= 3)%Z
  /\ als pinv_mp 0 1 2 3 two_users_one_item
     = (Raise IndexError, two_users_one_item).
Proof.
  assert (HR : wf (heap two_users_one_item 0)) by (apply wfb_wf; reflexivity).
  assert (HV : wf (heap two_users_one_item 2)) by (apply wfb_wf; reflexivity).
  split; [exact pinv_mp_shape|]. split; [exact HR|]. split; [exact HV|].
  split; [reflexivity|]. split; [cbn; lia|]. split; [lia|].
  apply (als_more_users_than_items pinv_mp 0 1 2 3 two_users_one_item
           pinv_mp_shape HR HV eq_refl); [cbn; lia|lia].
Defined.

Lemma als_fewer_users_than_items_witness :
  pinv_shape pinv_mp
  /\ wf (heap two_users_three_items 0) /\ wf (heap two_users_three_items 2)
  /\ nrows (heap two_users_three_items 2)
     = ncols (heap two_users_three_items 0)
  /\ (1 < nrows (heap two_users_three_items 0)
      < ncols (heap two_users_three_items 0))%nat
  /\ (1 <= 3)%Z
  /\ als pinv_mp 0 1 2 3 two_users_three_items
     = (Raise ValueError, two_users_three_items).
Proof.
  assert (HR : wf (heap two_users_three_items 0))
    by (apply wfb_wf; reflexivity).
  assert (HV : wf (heap two_users_three_items 2))
    by (apply wfb_wf; reflexivity).
  split; [exact pinv_mp_shape|]. split; [exact HR|]. split; [exact HV|].
  split; [reflexivity|]. split; [cbn; lia|]. split; [lia|].
  apply (als_fewer_users_than_items pinv_mp 0 1 2 3 two_users_three_items
           pinv_mp_shape HR HV eq_refl); [cbn; lia|lia].
Defined.

Lemma als_single_user_witness :
  pinv_shape pinv_mp
  /\ wf (heap one_user_two_items 0) /\ wf (heap one_user_two_items 2)
  /\ nrows (heap one_user_two_items 2) = ncols (heap one_user_two_items 0)
  /\ nrows (heap one_user_two_items 0) = 1%nat
  /\ (1 <= ncols (heap one_user_two_items 0))%nat
  /\ exists e,
       als pinv_mp 0 1 2 1 one_user_two_items
       = (Ok (Arr2 (pass_users_matrix pinv_mp (heap one_user_two_items 0)
                                      (heap one_user_two_items 2)),
              Arr2 (next_items pinv_mp (heap one_user_two_items 0)
                               (heap one_user_two_items 2))),
          emit one_user_two_items [e])
       /\ nrows (next_items pinv_mp (heap one_user_two_items 0)
                            (heap one_user_two_items 2)) = 1%nat.
Proof.
  assert (HR : wf (heap one_user_two_items 0)) by (apply wfb_wf; reflexivity).
  assert (HV : wf (heap one_user_two_items 2)) by (apply wfb_wf; reflexivity).
  split; [exact pinv_mp_shape|]. split; [exact HR|]. split; [exact HV|].
  split; [reflexivity|]. split; [reflexivity|]. split; [cbn; lia|].
  apply (als_single_user pinv_mp 0 1 2 one_user_two_items
           pinv_mp_shape HR HV eq_refl eq_refl). cbn; lia.
Defined.

(** With no user the two inner loops are empty: a pass never calls
    [np.linalg.pinv] and never looks at the item factors. *)
Lemma iteration_no_users pinv ratings st w :
  nrows (heap w ratings) = 0%nat ->
  iteration pinv (Whole ratings) (Transposed ratings) st w
  = (Ok (Locals (Fresh (Arr1 [])) (Some (Arr1 [])) (Some (Arr1 []))),
     emit w [0]).
Proof.
  intros Hm. unfold iteration, bind.
  rewrite update_users_run. cbn [view_value]. rewrite Hm. cbn [seq collect rbind].
  cbn [np_asarray]. rewrite update_items_empty by exact Hm.
  rewrite report_run. unfold sq_error, np_sub. cbn [view_value].
  cbn [np_T np_dot length Nat.eqb rbind as2d nrows ncols dotv].
  rewrite !bdim_one_r, Hm. reflexivity.
Qed.

Lemma loop_no_users pinv ratings n :
  forall st w,
    nrows (heap w ratings) = 0%nat ->
    loop pinv (S n) (Whole ratings) (Transposed ratings) st w
    = (Ok (Locals (Fresh (Arr1 [])) (Some (Arr1 [])) (Some (Arr1 []))),
       emit w (repeat 0 (S n))).
Proof.
  induction n as [|n IH]; intros st w Hm.
  - cbn [loop]. unfold bind. now rewrite iteration_no_users.
  - change (loop pinv (S (S n)) (Whole ratings) (Transposed ratings) st w)
      with (bind (iteration pinv (Whole ratings) (Transposed ratings) st)
                 (loop pinv (S n) (Whole ratings) (Transposed ratings)) w).
    unfold bind. rewrite iteration_no_users by exact Hm.
    rewrite IH by exact Hm. now rewrite emit_emit.
Qed.

(** X5.  When [ratings] has no row, a call with at least one pass returns
    the pair of empty one-dimensional arrays and prints the error 0 once
    per pass, whatever the item factors and whatever [np.linalg.pinv]
    does: neither is used. *)
Theorem als_no_users pinv ratings users items reps w :
  nrows (heap w ratings) = 0%nat ->
  (1 <= reps)%Z ->
  als pinv ratings users items reps w
  = (Ok (Arr1 [], Arr1 []), emit w (repeat 0 (Z.to_nat reps))).
Proof.
  intros Hm Hreps. unfold als.
  replace (Z.to_nat reps) with (S (Z.to_nat (reps - 1))) by lia.
  unfold bind. now rewrite loop_no_users.
Qed.

Lemma als_no_users_witness :
  nrows (heap no_users 0) = 0%nat
  /\ (1 <= 3)%Z
  /\ als pinv_mp 0 1 2 3 no_users
     = (Ok (Arr1 [], Arr1 []), emit no_users (repeat 0 (Z.to_nat 3))).
Proof.
  split; [reflexivity|]. split; [lia|].
  apply als_no_users; [reflexivity|lia].
Defined.

(** ** The item half-step *)



(** ** The reconstruction error, entry by entry *)

Lemma tabulate_ext m r f g :
  (forall i j, (i < m)%nat -> (j < r)%nat -> f i j = g i j) ->
  tabulate m r f = tabulate m r g.
Proof.
  intros H. unfold tabulate. apply map_ext_in. intros i Hi.
  apply in_seq in Hi. apply map_ext_in. intros j Hj. apply in_seq in Hj.
  apply H; lia.
Qed.

Lemma vsum_cons x v : vsum (x :: v) = x + vsum v.
Proof. reflexivity. Qed.

Lemma vsum_app u v : vsum (u ++ v) = vsum u + vsum v.
Proof.
  induction u as [|x u IH].
  - cbn [app]. change (vsum []) with 0. ring.
  - cbn [app]. rewrite !vsum_cons, IH. ring.
Qed.

Lemma vsum_map_plus {A} (f g : A -> Qc) (l : list A) :
  vsum (map (fun x => f x + g x) l) = vsum (map f l) + vsum (map g l).
Proof.
  induction l as [|x l IH]; cbn [map].
  - change (vsum []) with 0. ring.
  - rewrite !vsum_cons, IH. ring.
Qed.

Lemma vsum_map_zero {A} (l : list A) : vsum (map (fun _ => 0) l) = 0.
Proof.
  induction l as [|x l IH]; cbn [map]; [reflexivity|].
  rewrite vsum_cons, IH. ring.
Qed.

Lemma vsum_map_le {A} (f g : A -> Qc) (l : list A) :
  (forall x, In x l -> f x <= g x) ->
  vsum (map f l) <= vsum (map g l).
Proof.
  induction l as [|x l IH]; intros H; cbn [map]; [apply Qcle_refl|].
  rewrite !vsum_cons.
  apply Qcplus_le_compat; [apply H; now left|].
  apply IH. intros y Hy. apply H. now right.
Qed.

(** The two orders of summation agree. *)
Lemma total_tabulate_swap m r f :
  total (tabulate m r f) = total (tabulate r m (fun j i => f i j)).
Proof.
  unfold total, tabulate. rewrite !map_map.
  induction m as [|m IH].
  - cbn [seq map]. change (vsum []) with 0. now rewrite vsum_map_zero.
  - rewrite seq_S, map_app, vsum_app, IH. cbn [map plus].
    rewrite vsum_cons. change (vsum []) with 0.
    rewrite (map_ext (fun j => vsum (map (fun i => f i j) (seq 0 m ++ [m])))
                     (fun j => vsum (map (fun i => f i j) (seq 0 m)) + f m j)).
    + rewrite vsum_map_plus, Qcplus_0_r. reflexivity.
    + intros j. rewrite map_app, vsum_app. cbn [map].
      rewrite vsum_cons. change (vsum []) with 0. ring.
Qed.

Lemma nth_column i j l : nth i (column j l) 0 = entry l i j.
Proof.
  unfold column, entry.
  replace 0 with ((fun r : vec => nth j r 0) []) at 1 by now destruct j.
  apply (map_nth (fun r : vec => nth j r 0)).
Qed.

Lemma nth_columns_in nc l j :
  (j < nc)%nat -> nth j (columns nc l) [] = column j l.
Proof.
  intros Hj. unfold columns.
  rewrite (nth_indep _ [] (column 0 l)) by now rewrite length_map, length_seq.
  change (column 0 l) with ((fun j => column j l) 0%nat).
  rewrite map_nth, seq_nth by assumption. reflexivity.
Qed.

(** Column [j] of the transpose is row [j]. *)
Lemma column_columns k l j :
  Forall (fun r => length r = k) l -> (j < length l)%nat ->
  column j (columns k l) = nth j l [].
Proof.
  intros Hl Hj. unfold columns at 1. unfold column at 1. rewrite map_map.
  rewrite (map_ext _ (fun p => nth p (nth j l []) 0))
    by (intros p; apply nth_column).
  rewrite Forall_forall in Hl.
  rewrite <- (Hl (nth j l [])) by now apply nth_In.
  apply map_nth_self.
Qed.

Lemma entry_matmul A B i j :
  (i < length (rows A))%nat -> (j < ncols B)%nat ->
  entry (rows (matmul A B)) i j
  = dotv (nth i (rows A) []) (column j (rows B)).
Proof.
  intros Hi Hj. unfold entry, matmul; cbn [rows].
  set (g := fun r : vec => map (fun c => dotv r c) (columns (ncols B) (rows B))).
  rewrite (nth_indep _ [] (g [])) by now rewrite length_map.
  rewrite (map_nth g). unfold g.
  rewrite (nth_indep _ 0 (dotv (nth i (rows A) []) []))
    by now rewrite length_map, length_columns.
  rewrite (map_nth (fun c => dotv (nth i (rows A) []) c)).
  now rewrite nth_columns_in.
Qed.

Lemma bget_entry A i j :
  (i < nrows A)%nat -> (j < ncols A)%nat -> bget A i j = entry (rows A) i j.
Proof.
  intros Hi Hj. unfold bget, entry.
  destruct (Nat.eqb_spec (ncols A) 1) as [E|_];
    destruct (Nat.eqb_spec (nrows A) 1) as [E'|_];
    try (replace j with 0%nat by lia); try (replace i with 0%nat by lia);
    reflexivity.
Qed.

Lemma has_shape_mT m n A : has_shape m n A -> has_shape n m (mT A).
Proof.
  intros (HA & <- & <-). split; [now apply wf_mT|split; reflexivity].
Qed.

(** On well-shaped arrays the number computed by lines 265-267 (and by the
    cells that compute the initial error) is the sum of the squared
    residuals. *)
Lemma sq_error_fit m r k R U V :
  has_shape m r R -> has_shape m k U -> has_shape r k V ->
  sq_error R (Arr2 U) (Arr2 V) = Ok (fit_error R U V).
Proof.
  intros (HR & HRm & HRr) (HU & HUm & HUk) (HV & HVr & HVk).
  unfold sq_error. cbn [np_T np_dot mT nrows ncols].
  rewrite HUk, HVk, Nat.eqb_refl. cbn [rbind].
  unfold np_sub. cbn [as2d matmul nrows ncols].
  change (ncols (mT V)) with (nrows V).
  rewrite HRm, HUm, HRr, HVr, !bdim_same. cbn [rbind].
  apply f_equal. unfold fit_error, np_sum, np_square, total, tabulate.
  cbn [rows]. rewrite HRm, HRr, !map_map. f_equal.
  apply map_ext_in. intros i Hi. apply in_seq in Hi. rewrite !map_map.
  f_equal. apply map_ext_in. intros j Hj. apply in_seq in Hj.
  unfold residual_sq. f_equal. f_equal.
  - apply bget_entry; lia.
  - rewrite bget_entry by (cbn; lia).
    rewrite entry_matmul.
    + f_equal. cbn [mT rows]. apply column_columns; [apply HV|].
      destruct HV as [-> _]. lia.
    + destruct HU as [-> _]. lia.
    + cbn. lia.
Qed.

Lemma row_residual u : forall V t,
  length t = length V ->
  vsum (map (fun j => (nth j t 0 - dotv u (nth j V [])) ^ 2) (seq 0 (length V)))
  = sumsq (vsub (matvec V u) t).
Proof.
  unfold sumsq.
  induction V as [|v V IH]; intros [|x t] Ht; try discriminate.
  - reflexivity.
  - cbn [length] in *. rewrite <- cons_seq, <- seq_shift, map_cons, map_map.
    rewrite vsum_cons. cbn [nth matvec map vsub vzip dotv].
    change (vzip Qcminus (map (fun r => dotv r u) V) t)
      with (vsub (matvec V u) t).
    rewrite <- IH by congruence.
    rewrite (dotv_comm u v). cbn [Qcpower]. ring.
Qed.

(** The error as a sum over the users: user [i] contributes the squared
    residual of [V u_i = R_i]. *)
Lemma fit_error_rows m r k R U V :
  has_shape m r R -> has_shape m k U -> has_shape r k V ->
  fit_error R U V
  = vsum (map (fun i => sumsq (vsub (matvec (rows V) (nth i (rows U) []))
                                    (nth i (rows R) [])))
              (seq 0 m)).
Proof.
  intros (HR & HRm & HRr) _ (HV & HVr & HVk).
  unfold fit_error, total, tabulate. rewrite map_map, HRm.
  f_equal. apply map_ext_in. intros i Hi. apply in_seq in Hi.
  rewrite <- row_residual.
  - destruct HV as [-> _]. rewrite HVr, HRr. reflexivity.
  - rewrite (wf_rows_nth _ _ _ _ HR) by lia.
    destruct HV as [-> _]. congruence.
Qed.

(** Users and items change places when the ratings are transposed. *)
Lemma fit_error_transpose m r k R U V :
  has_shape m r R -> has_shape m k U -> has_shape r k V ->
  fit_error R U V = fit_error (mT R) V U.
Proof.
  intros (HR & HRm & HRr) _ _.
  unfold fit_error. cbn [mT nrows ncols]. rewrite total_tabulate_swap.
  f_equal. apply tabulate_ext. intros j i Hj Hi.
  unfold residual_sq. cbn [mT rows].
  f_equal. f_equal.
  - unfold entry at 2. rewrite nth_columns_in by assumption.
    symmetry. apply nth_column.
  - apply dotv_comm.
Qed.

(** ** Each half-step lowers the error *)

Lemma moore_penrose_shape pinv A :
  moore_penrose A (pinv A) -> pinv_shape_at pinv A.
Proof. intros (H1 & H2 & H3 & _). unfold pinv_shape_at. auto. Qed.

Lemma has_shape_pass_users pinv m r k R V :
  has_shape m r R -> has_shape r k V -> pinv_shape_at pinv V ->
  has_shape m k (pass_users_matrix pinv R V).
Proof.
  intros (HR & HRm & HRr) (HV & HVr & HVk) Hp.
  split; [now apply wf_pass_users_matrix|]. cbn. auto.
Qed.

Lemma nth_pass_users pinv R V i :
  wf R -> (i < nrows R)%nat ->
  nth i (rows (pass_users_matrix pinv R V)) []
  = matvec (rows (pinv V)) (nth i (rows R) []).
Proof.
  intros [Hl _] Hi. cbn [pass_users_matrix rows]. unfold pass_users.
  rewrite (nth_indep _ [] (matvec (rows (pinv V)) []))
    by (rewrite length_map; lia).
  apply (map_nth (matvec (rows (pinv V)))).
Qed.

(** The user half-step: no user factors fit the ratings better, with the
    item factors held fixed, than the ones it solves for. *)
Lemma users_step_improves pinv m r k R U0 V :
  has_shape m r R -> has_shape m k U0 -> has_shape r k V ->
  moore_penrose V (pinv V) ->
  fit_error R (pass_users_matrix pinv R V) V <= fit_error R U0 V.
Proof.
  intros HR HU0 HV HG.
  pose proof (has_shape_pass_users pinv m r k R V HR HV
                (moore_penrose_shape pinv V HG)) as HU.
  rewrite (fit_error_rows m r k R _ V HR HU HV).
  rewrite (fit_error_rows m r k R U0 V HR HU0 HV).
  apply vsum_map_le. intros i Hi. apply in_seq in Hi.
  destruct HR as (HR & HRm & HRr), HV as (HV & HVr & HVk),
           HU0 as (HU0 & HU0m & HU0k).
  rewrite nth_pass_users by (auto; lia).
  apply (pinv_minimises V (pinv V) HV HG).
  - rewrite (wf_rows_nth _ _ _ _ HR) by lia. congruence.
  - rewrite (wf_rows_nth _ _ _ _ HU0) by lia. congruence.
Qed.

(** The item half-step is the user half-step of the transposed problem. *)
Lemma items_step_improves pinv m r k R U V0 :
  has_shape m r R -> has_shape m k U -> has_shape r k V0 ->
  moore_penrose U (pinv U) ->
  fit_error R U (pass_users_matrix pinv (mT R) U) <= fit_error R U V0.
Proof.
  intros HR HU HV0 HG.
  pose proof (has_shape_mT m r R HR) as HRt.
  pose proof (has_shape_pass_users pinv r m k (mT R) U HRt HU
                (moore_penrose_shape pinv U HG)) as HV.
  rewrite (fit_error_transpose m r k R U _ HR HU HV).
  rewrite (fit_error_transpose m r k R U V0 HR HU HV0).
  now apply (users_step_improves pinv r m k).
Qed.

(** On a square ratings matrix the item factors that a pass leaves are the
    solution of the transposed problem. *)
Lemma next_items_transposed pinv R V :
  nrows R = ncols R ->
  next_items pinv R V
  = pass_users_matrix pinv (mT R) (pass_users_matrix pinv R V).
Proof.
  intros Hsq. unfold next_items. rewrite (pass_items_square pinv R V Hsq).
  unfold single_pass_items.
  set (U := pass_users_matrix pinv R V).
  assert (HU : ncols U = ncols V) by reflexivity.
  clearbody U. unfold pass_users_matrix, pass_users.
  cbn [mT nrows ncols rows]. now rewrite Hsq, HU.
Qed.

(** A whole pass on a square ratings matrix: the error it prints is at
    most the error of any user factors with the item factors it started
    from. *)
Lemma pass_improves pinv m k R U0 V :
  has_shape m m R -> has_shape m k U0 -> has_shape m k V ->
  moore_penrose V (pinv V) ->
  moore_penrose (pass_users_matrix pinv R V)
                (pinv (pass_users_matrix pinv R V)) ->
  pass_error pinv R V <= fit_error R U0 V.
Proof.
  intros HR HU0 HV HGV HGU.
  pose proof (has_shape_pass_users pinv m m k R V HR HV
                (moore_penrose_shape pinv V HGV)) as HU.
  apply Qcle_trans with (fit_error R (pass_users_matrix pinv R V) V).
  - unfold pass_error. rewrite next_items_transposed
      by (destruct HR as (_ & -> & ->); reflexivity).
    now apply (items_step_improves pinv m m k).
  - now apply (users_step_improves pinv m m k).
Qed.

(** ** The errors that a run prints *)

Lemma has_shape_next_items pinv m k R V :
  has_shape m m R -> has_shape m k V ->
  pinv_shape_at pinv V ->
  pinv_shape_at pinv (pass_users_matrix pinv R V) ->
  has_shape m k (next_items pinv R V).
Proof.
  intros HR HV HpV HpU.
  rewrite next_items_transposed
    by (destruct HR as (_ & -> & ->); reflexivity).
  apply (has_shape_pass_users pinv m m k); auto.
  - now apply has_shape_mT.
  - now apply (has_shape_pass_users pinv m m k).
Qed.

(** [n] passes on a square ratings matrix print the errors
    [errors_from], and leave [new_users] and [new_items] bound. *)
Lemma loop_square_trace pinv ratings R m k :
  has_shape m m R -> (1 <= m)%nat ->
  forall n st w V,
    heap w ratings = R ->
    value_of (items_var st) w = Arr2 V -> has_shape m k V ->
    (forall i, (i < n)%nat ->
       pinv_shape_at pinv (items_after pinv R i V)
       /\ pinv_shape_at pinv
            (pass_users_matrix pinv R (items_after pinv R i V))) ->
    exists st',
      loop pinv n (Whole ratings) (Transposed ratings) st w
      = (Ok st', emit w (errors_from pinv R n V))
      /\ (n <> 0%nat ->
          new_users_var st'
          = Some (Arr2 (pass_users_matrix pinv R
                          (items_after pinv R (Nat.pred n) V)))
          /\ new_items_var st' = Some (Arr2 (items_after pinv R n V))).
Proof.
  intros HR Hm n.
  induction n as [|n IH]; intros st w V Hw Hst HV Hp.
  - exists st. cbn [loop errors_from]. rewrite emit_nil. split; [reflexivity|].
    intros H; congruence.
  - destruct (Hp 0%nat) as [HpV HpU]; [lia|]. cbn [items_after] in HpV, HpU.
    pose proof (has_shape_pass_users pinv m m k R V HR HV HpV) as HU.
    pose proof (has_shape_next_items pinv m k R V HR HV HpV HpU) as HV'.
    destruct HR as (HRwf & HRm & HRr). destruct HV as (HVwf & HVm & HVk).
    assert (Hrows : nrows V = ncols R) by congruence.
    destruct (pass_iteration pinv ratings w R V Hw HRwf Hrows HpV HpU st Hst)
      as (e & He & Hrun); [lia|left; congruence|].
    rewrite (stack_pass_users pinv R V HRwf Hrows HpV) in He, Hrun by lia.
    rewrite (stack_pass_items pinv R V Hrows HpU) in He, Hrun by lia.
    change (Mat (nrows R) (ncols V) (pass_items pinv R V))
      with (next_items pinv R V) in He, Hrun.
    rewrite (sq_error_fit m m k R _ _ (conj HRwf (conj HRm HRr)) HU HV') in He.
    injection He as <-.
    cbn [loop errors_from]. unfold bind. rewrite Hrun.
    destruct (IH (Locals (Fresh (Arr2 (next_items pinv R V)))
                         (Some (Arr2 (pass_users_matrix pinv R V)))
                         (Some (Arr2 (next_items pinv R V))))
                 (emit w [fit_error R (pass_users_matrix pinv R V)
                                    (next_items pinv R V)])
                 (next_items pinv R V) Hw eq_refl HV')
      as (st' & Hloop & Hbound).
    + intros i Hi. apply (Hp (S i)). lia.
    + exists st'. rewrite Hloop, emit_emit. split; [reflexivity|].
      intros _. destruct n as [|n'].
      * cbn [loop] in Hloop. unfold ret in Hloop.
        injection Hloop as <-. cbn. auto.
      * apply Hbound. discriminate.
Qed.

(** The errors of a run do not increase, starting from the error of any
    user factors with the initial item factors. *)
Lemma errors_from_nonincreasing pinv m k R :
  has_shape m m R ->
  forall n V U0,
    has_shape m k U0 -> has_shape m k V ->
    (forall i, (i < n)%nat ->
       moore_penrose (items_after pinv R i V)
                     (pinv (items_after pinv R i V))
       /\ moore_penrose
            (pass_users_matrix pinv R (items_after pinv R i V))
            (pinv (pass_users_matrix pinv R (items_after pinv R i V)))) ->
    nonincreasing (fit_error R U0 V :: errors_from pinv R n V).
Proof.
  intros HR n.
  induction n as [|n IH]; intros V U0 HU0 HV Hmp; [exact I|].
  destruct (Hmp 0%nat) as [HgV HgU]; [lia|]. cbn [items_after] in HgV, HgU.
  cbn [errors_from]. split.
  - now apply (pass_improves pinv m k).
  - apply IH.
    + apply (has_shape_pass_users pinv m m k); auto.
      now apply moore_penrose_shape.
    + apply has_shape_next_items; auto; now apply moore_penrose_shape.
    + intros i Hi. apply (Hmp (S i)). lia.
Qed.

Lemma length_errors_from pinv R n : forall V,
  length (errors_from pinv R n V) = n.
Proof. induction n as [|n IH]; intros V; cbn; [reflexivity|now rewrite IH]. Qed.

(** In exact arithmetic, alternation never makes the fit worse.  On a
    square ratings matrix with well-shaped item factors, for a
    pseudo-inverse that satisfies the Penrose equations at the matrices
    the run applies it to, [als] returns, and the errors it prints form a
    non-increasing
    sequence that starts at or below the error of the initial factors
    (the number the notebook computes before it calls [als]), whatever
    user factors of the right shape that error is taken with. *)
Theorem als_errors_nonincreasing pinv ratings users items reps w m k U0 :
  has_shape m m (heap w ratings) -> has_shape m k (heap w items) ->
  has_shape m k U0 -> (1 <= m)%nat -> (1 <= reps)%Z ->
  (forall i, (i < Z.to_nat reps)%nat ->
     let V := items_after pinv (heap w ratings) i (heap w items) in
     let U := pass_users_matrix pinv (heap w ratings) V in
     moore_penrose V (pinv V) /\ moore_penrose U (pinv U)) ->
  exists e0 res out,
    sq_error (heap w ratings) (Arr2 U0) (Arr2 (heap w items)) = Ok e0
    /\ als pinv ratings users items reps w = (Ok res, emit w out)
    /\ length out = Z.to_nat reps
    /\ nonincreasing (e0 :: out).
Proof.
  intros HR HV HU0 Hm Hreps Hmp.
  destruct (loop_square_trace pinv ratings (heap w ratings) m k HR Hm
              (Z.to_nat reps) (Locals (Caller (Whole items)) None None)
              w (heap w items) eq_refl eq_refl HV)
    as (st' & Hloop & Hbound).
  { intros i Hi. destruct (Hmp i Hi) as [H1 H2].
    split; now apply moore_penrose_shape. }
  destruct Hbound as (Hu & Hv); [lia|].
  eexists (fit_error (heap w ratings) U0 (heap w items)), (_, _),
    (errors_from pinv (heap w ratings) (Z.to_nat reps) (heap w items)).
  split; [now apply (sq_error_fit m m k)|]. split.
  - unfold als, bind. rewrite Hloop. unfold return_factors.
    now rewrite Hu, Hv.
  - split; [apply length_errors_from|].
    now apply (errors_from_nonincreasing pinv m k).
Qed.

Lemma als_errors_nonincreasing_witness :
  has_shape 2 1 (heap two_by_two 2) /\ (1 <= 3)%Z
  /\ exists e0 res out,
       sq_error (heap two_by_two 0) (Arr2 unit21) (Arr2 (heap two_by_two 2))
       = Ok e0
       /\ als pinv_mp 0 1 2 3 two_by_two = (Ok res, emit two_by_two out)
       /\ length out = Z.to_nat 3
       /\ nonincreasing (e0 :: out).
Proof.
  assert (H22 : has_shape 2 2 (heap two_by_two 0))
    by (split; [apply wfb_wf; reflexivity|split; reflexivity]).
  assert (H21 : has_shape 2 1 (heap two_by_two 2))
    by (split; [apply wfb_wf; reflexivity|split; reflexivity]).
  split; [exact H21|]. split; [lia|].
  apply (als_errors_nonincreasing pinv_mp 0 1 2 3 two_by_two 2 1 unit21
           H22 H21 H21); [lia|lia|].
  intros i Hi.
  destruct i as [|[|[|i]]]; [| | |cbn in Hi; lia];
    split; apply moore_penroseb_sound; vm_compute; reflexivity.
Defined.

(** ** When the error is zero *)

Lemma Qc_sq_zero (x : Qc) : x ^ 2 = 0 -> x = 0.
Proof.
  intros H. change (x ^ 2) with (x * (x * 1)) in H.
  rewrite Qcmult_1_r in H.
  destruct (Qcmult_integral _ _ H); assumption.
Qed.

Lemma Qc_sq_nonneg_pow (x : Qc) : 0 <= x ^ 2.
Proof.
  change (x ^ 2) with (x * (x * 1)). rewrite Qcmult_1_r.
  apply Qc_sq_nonneg.
Qed.

Lemma vsum_zero_all (v : vec) :
  Forall (fun x => 0 <= x) v -> vsum v = 0 -> Forall (fun x => x = 0) v.
Proof.
  induction 1 as [|x v Hx Hv IH]; intros Hsum; [constructor|].
  rewrite vsum_cons in Hsum.
  pose proof (vsum_nonneg v Hv) as Hv0.
  assert (Hx0 : x = 0).
  { apply Qcle_antisym; [|exact Hx].
    rewrite <- Hsum. now apply Qc_le_add_nonneg. }
  constructor; [exact Hx0|].
  apply IH. rewrite Hx0 in Hsum. now rewrite Qcplus_0_l in Hsum.
Qed.

Lemma total_tabulate_zero m r f :
  (forall i j, 0 <= f i j) ->
  total (tabulate m r f) = 0 <->
  forall i j, (i < m)%nat -> (j < r)%nat -> f i j = 0.
Proof.
  intros Hf. unfold total, tabulate. rewrite map_map. split.
  - intros H i j Hi Hj.
    apply vsum_zero_all in H.
    + rewrite Forall_forall in H.
      assert (Hrow : vsum (map (fun j => f i j) (seq 0 r)) = 0).
      { apply H. apply in_map_iff. exists i. split; [reflexivity|].
        apply in_seq. lia. }
      apply vsum_zero_all in Hrow.
      * rewrite Forall_forall in Hrow. apply Hrow.
        apply in_map_iff. exists j. split; [reflexivity|]. apply in_seq. lia.
      * apply Forall_forall. intros x Hx.
        apply in_map_iff in Hx as (j' & <- & _). apply Hf.
    + apply Forall_forall. intros x Hx.
      apply in_map_iff in Hx as (i' & <- & _). apply vsum_nonneg.
      apply Forall_forall. intros y Hy.
      apply in_map_iff in Hy as (j' & <- & _). apply Hf.
  - intros H.
    rewrite (map_ext_in _ (fun _ => 0)); [apply vsum_map_zero|].
    intros i Hi. apply in_seq in Hi.
    rewrite (map_ext_in _ (fun _ => 0)); [apply vsum_map_zero|].
    intros j Hj. apply in_seq in Hj. apply H; lia.
Qed.

Lemma fit_error_nonneg R U V : 0 <= fit_error R U V.
Proof.
  unfold fit_error, total, tabulate. rewrite map_map.
  apply vsum_nonneg, Forall_forall. intros x Hx.
  apply in_map_iff in Hx as (i & <- & _).
  apply vsum_nonneg, Forall_forall. intros y Hy.
  apply in_map_iff in Hy as (j & <- & _).
  apply Qc_sq_nonneg_pow.
Qed.

(** Two lists of rows of the same shape with the same entries are equal. *)
Lemma rows_ext m r l1 l2 :
  wf_rows m r l1 -> wf_rows m r l2 ->
  (forall i j, (i < m)%nat -> (j < r)%nat -> entry l1 i j = entry l2 i j) ->
  l1 = l2.
Proof.
  intros H1 H2 H.
  apply (nth_ext _ _ [] []); [destruct H1, H2; congruence|].
  intros i Hi. destruct H1 as [Hl1 ?] eqn:E1. rewrite Hl1 in Hi. clear E1.
  apply (nth_ext _ _ 0 0).
  - rewrite (wf_rows_nth m r l1 i), (wf_rows_nth m r l2 i); auto.
  - intros j Hj. rewrite (wf_rows_nth m r l1 i) in Hj by auto.
    now apply H.
Qed.

Lemma wf_rows_matmul A B :
  wf A -> wf_rows (nrows A) (ncols B) (rows (matmul A B)).
Proof.
  intros [Hl _]. split; cbn [matmul rows].
  - now rewrite length_map.
  - apply Forall_forall. intros x Hx. apply in_map_iff in Hx as (u & <- & _).
    now rewrite length_map, length_columns.
Qed.

Lemma entry_reconstruction m r k U V i j :
  has_shape m k U -> has_shape r k V -> (i < m)%nat -> (j < r)%nat ->
  entry (rows (matmul U (mT V))) i j
  = dotv (nth i (rows U) []) (nth j (rows V) []).
Proof.
  intros (HU & HUm & HUk) (HV & HVr & HVk) Hi Hj.
  rewrite entry_matmul.
  - f_equal. cbn [mT rows]. apply column_columns; [apply HV|].
    destruct HV as [-> _]. lia.
  - destruct HU as [-> _]. lia.
  - cbn. lia.
Qed.

(** The error of a pair of factors is zero exactly when their product is
    the ratings matrix. *)
Lemma fit_error_zero_iff m r k R U V :
  has_shape m r R -> has_shape m k U -> has_shape r k V ->
  fit_error R U V = 0 <-> matmul U (mT V) = R.
Proof.
  intros HR HU HV. unfold fit_error.
  destruct HR as (HRwf & HRm & HRr). rewrite HRm, HRr.
  rewrite total_tabulate_zero
    by (intros; unfold residual_sq; apply Qc_sq_nonneg_pow).
  split.
  - intros H.
    assert (Hrows : rows (matmul U (mT V)) = rows R).
    { apply (rows_ext m r).
      - pose proof (wf_rows_matmul U (mT V) (proj1 HU)) as Hwf.
        destruct HU as (_ & HUm & _), HV as (_ & HVr & _).
        cbn [mT ncols] in Hwf. now rewrite HUm, HVr in Hwf.
      - unfold wf in HRwf. now rewrite HRm, HRr in HRwf.
      - intros i j Hi Hj.
        rewrite (entry_reconstruction m r k) by assumption.
        specialize (H i j Hi Hj). unfold residual_sq in H.
        apply Qc_sq_zero in H. symmetry.
        rewrite <- (Qcplus_0_l (dotv _ _)), <- H. ring. }
    destruct R as [nr nc rs]. cbn [nrows ncols rows] in *.
    unfold matmul in *. cbn [rows mT ncols] in *.
    destruct HU as (_ & HUm & _), HV as (_ & HVr & _).
    rewrite Hrows, HUm, HVr, HRm, HRr. reflexivity.
  - intros H i j Hi Hj. unfold residual_sq.
    rewrite <- (entry_reconstruction m r k) by assumption.
    rewrite H. set (x := entry (rows R) i j).
    change ((x - x) * ((x - x) * 1) = 0). ring.
Qed.

(** In exact arithmetic, the number that lines 265-267 print, and that
    the notebook computes for the initial factors, is zero exactly when
    the product of
    the user factors and the transposed item factors is the ratings
    matrix itself. *)
Theorem sq_error_zero_iff m r k R U V :
  has_shape m r R -> has_shape m k U -> has_shape r k V ->
  sq_error R (Arr2 U) (Arr2 V) = Ok 0
  <-> np_dot (Arr2 U) (np_T (Arr2 V)) = Ok (Arr2 R).
Proof.
  intros HR HU HV.
  rewrite (sq_error_fit m r k R U V HR HU HV).
  pose proof (fit_error_zero_iff m r k R U V HR HU HV) as Hiff.
  cbn [np_T np_dot mT nrows ncols].
  destruct HU as (_ & _ & ->), HV as (_ & _ & ->). rewrite Nat.eqb_refl.
  split.
  - intros H. injection H as H. apply Hiff in H. cbn [mT] in H.
    now rewrite H.
  - intros H. injection H as H. apply f_equal. apply Hiff. exact H.
Qed.

Lemma sq_error_zero_iff_witness :
  has_shape 3 3 ratings33 /\ has_shape 3 1 threes31 /\ has_shape 3 1 ones31
  /\ (sq_error ratings33 (Arr2 threes31) (Arr2 ones31) = Ok 0
      <-> np_dot (Arr2 threes31) (np_T (Arr2 ones31)) = Ok (Arr2 ratings33)).
Proof.
  assert (H33 : has_shape 3 3 ratings33)
    by (split; [apply wfb_wf; reflexivity|split; reflexivity]).
  assert (H3 : has_shape 3 1 threes31)
    by (split; [apply wfb_wf; reflexivity|split; reflexivity]).
  assert (H1 : has_shape 3 1 ones31)
    by (split; [apply wfb_wf; reflexivity|split; reflexivity]).
  split; [exact H33|]. split; [exact H3|]. split; [exact H1|].
  exact (sq_error_zero_iff 3 3 1 ratings33 threes31 ones31 H33 H3 H1).
Defined.

(** ** Ratings that the initial item factors can reproduce *)

Lemma nth_errors_from pinv R : forall n V i,
  (i < n)%nat ->
  nth i (errors_from pinv R n V) 0
  = pass_error pinv R (items_after pinv R i V).
Proof.
  induction n as [|n IH]; intros V i Hi; [lia|].
  destruct i as [|i]; [reflexivity|].
  cbn [errors_from nth items_after]. apply IH. lia.
Qed.

Lemma errors_from_nonneg pinv R : forall n V,
  Forall (fun x => 0 <= x) (errors_from pinv R n V).
Proof.
  induction n as [|n IH]; intros V; cbn [errors_from]; constructor.
  - apply fit_error_nonneg.
  - apply IH.
Qed.

Lemma nonincreasing_from_zero (l : list Qc) :
  nonincreasing (0 :: l) -> Forall (fun x => 0 <= x) l ->
  l = repeat 0 (length l).
Proof.
  induction l as [|y l IH]; intros Hdec Hpos; [reflexivity|].
  destruct Hdec as [Hy Hdec]. apply Forall_cons_iff in Hpos as [Hy' Hpos].
  assert (y = 0) by now apply Qcle_antisym. subst y.
  cbn [length repeat]. f_equal. now apply IH.
Qed.

Lemma has_shape_items_after pinv m k R :
  has_shape m m R ->
  forall n V,
    has_shape m k V ->
    (forall i, (i < n)%nat ->
       pinv_shape_at pinv (items_after pinv R i V)
       /\ pinv_shape_at pinv
            (pass_users_matrix pinv R (items_after pinv R i V))) ->
    has_shape m k (items_after pinv R n V).
Proof.
  intros HR n. induction n as [|n IH]; intros V HV Hp; [exact HV|].
  cbn [items_after]. destruct (Hp 0%nat) as [H1 H2]; [lia|].
  apply IH.
  - now apply has_shape_next_items.
  - intros i Hi. apply (Hp (S i)). lia.
Qed.

(** In exact arithmetic, ratings that some user factors reproduce
    exactly with the initial item factors are fitted exactly.  On a
    square ratings matrix that is the product of some well-shaped user
    factors and the transposed initial item factors, for a pseudo-inverse
    that satisfies the Penrose equations at the matrices the run applies
    it to, [als]
    prints zero on every pass and returns factors whose product is the
    ratings matrix. *)
Theorem als_exact_fit pinv ratings users items reps w m k U0 :
  has_shape m m (heap w ratings) -> has_shape m k (heap w items) ->
  has_shape m k U0 -> (1 <= m)%nat -> (1 <= reps)%Z ->
  matmul U0 (mT (heap w items)) = heap w ratings ->
  (forall i, (i < Z.to_nat reps)%nat ->
     let V := items_after pinv (heap w ratings) i (heap w items) in
     let U := pass_users_matrix pinv (heap w ratings) V in
     moore_penrose V (pinv V) /\ moore_penrose U (pinv U)) ->
  exists U V,
    als pinv ratings users items reps w
    = (Ok (Arr2 U, Arr2 V), emit w (repeat 0 (Z.to_nat reps)))
    /\ matmul U (mT V) = heap w ratings.
Proof.
  intros HR HV HU0 Hm Hreps Hfit Hmp.
  set (R := heap w ratings) in *. set (V0 := heap w items) in *.
  set (n := Z.to_nat reps) in *.
  assert (Hp : forall i, (i < n)%nat ->
            pinv_shape_at pinv (items_after pinv R i V0)
            /\ pinv_shape_at pinv
                 (pass_users_matrix pinv R (items_after pinv R i V0))).
  { intros i Hi. destruct (Hmp i Hi) as [H1 H2].
    split; now apply moore_penrose_shape. }
  destruct (loop_square_trace pinv ratings R m k HR Hm n
              (Locals (Caller (Whole items)) None None)
              w V0 eq_refl eq_refl HV Hp)
    as (st' & Hloop & Hbound).
  destruct Hbound as (Hu & Hv); [lia|].
  assert (Hzero : errors_from pinv R n V0 = repeat 0 n).
  { rewrite <- (length_errors_from pinv R n V0) at 2.
    apply nonincreasing_from_zero; [|apply errors_from_nonneg].
    rewrite <- (proj2 (fit_error_zero_iff m m k R U0 V0 HR HU0 HV) Hfit).
    now apply (errors_from_nonincreasing pinv m k). }
  exists (pass_users_matrix pinv R (items_after pinv R (Nat.pred n) V0)),
    (items_after pinv R n V0).
  split.
  - unfold als, bind. fold n. rewrite Hloop. unfold return_factors.
    now rewrite Hu, Hv, Hzero.
  - assert (Hn : n = S (Nat.pred n)) by lia.
    assert (HVp : has_shape m k (items_after pinv R (Nat.pred n) V0)).
    { apply has_shape_items_after; auto.
      intros i Hi. apply Hp. lia. }
    destruct (Hp (Nat.pred n)) as [HpV HpU]; [lia|].
    apply (fit_error_zero_iff m m k); auto.
    + now apply (has_shape_pass_users pinv m m k).
    + apply has_shape_items_after; auto.
    + pose proof (nth_errors_from pinv R n V0 (Nat.pred n)) as Hlast.
      rewrite Hzero, nth_repeat in Hlast.
      rewrite Hn at 2. rewrite items_after_succ.
      symmetry. apply Hlast. lia.
Qed.

Lemma als_exact_fit_witness :
  has_shape 3 1 (heap scenario 2) /\ (1 <= 2)%Z
  /\ matmul threes31 (mT (heap scenario 2)) = heap scenario 0
  /\ exists U V,
       als pinv_mp 0 1 2 2 scenario
       = (Ok (Arr2 U, Arr2 V), emit scenario (repeat 0 (Z.to_nat 2)))
       /\ matmul U (mT V) = heap scenario 0.
Proof.
  assert (H33 : has_shape 3 3 (heap scenario 0))
    by (split; [apply wfb_wf; reflexivity|split; reflexivity]).
  assert (H31 : has_shape 3 1 (heap scenario 2))
    by (split; [apply wfb_wf; reflexivity|split; reflexivity]).
  assert (H3 : has_shape 3 1 threes31)
    by (split; [apply wfb_wf; reflexivity|split; reflexivity]).
  assert (Hfit : matmul threes31 (mT (heap scenario 2)) = heap scenario 0)
    by (apply matrix_eqb_eq; vm_compute; reflexivity).
  split; [exact H31|]. split; [lia|]. split; [exact Hfit|].
  apply (als_exact_fit pinv_mp 0 1 2 2 scenario 3 1 threes31 H33 H31 H3);
    [lia|lia|exact Hfit|].
  intros i Hi.
  destruct i as [|[|i]]; [| |cbn in Hi; lia];
    split; apply moore_penroseb_sound; vm_compute; reflexivity.
Defined.

(** ** Matrix algebra *)

Lemma matrix_ext m n A B :
  has_shape m n A -> has_shape m n B ->
  (forall i j, (i < m)%nat -> (j < n)%nat ->
               entry (rows A) i j = entry (rows B) i j) ->
  A = B.
Proof.
  intros (HA & HAm & HAn) (HB & HBm & HBn) H.
  destruct A as [ra ca la], B as [rb cb lb].
  unfold wf in *. cbn [nrows ncols rows] in *. subst ra ca rb cb.
  f_equal. now apply (rows_ext m n).
Qed.

Lemma wf_matmul_len A B : length (rows A) = nrows A -> wf (matmul A B).
Proof.
  intros Hl. split; cbn [matmul rows nrows ncols].
  - now rewrite length_map.
  - apply Forall_forall. intros x Hx. apply in_map_iff in Hx as (u & <- & _).
    now rewrite length_map, length_columns.
Qed.

Lemma wf_matmul A B : wf A -> wf (matmul A B).
Proof. intros [Hl _]. now apply wf_matmul_len. Qed.

Lemma has_shape_matmul A B :
  wf A -> has_shape (nrows A) (ncols B) (matmul A B).
Proof. intros HA. split; [now apply wf_matmul|split; reflexivity]. Qed.

Lemma nth_rows_matmul A B i :
  (i < length (rows A))%nat ->
  nth i (rows (matmul A B)) []
  = map (dotv (nth i (rows A) [])) (columns (ncols B) (rows B)).
Proof.
  intros Hi. cbn [matmul rows].
  set (g := fun r : vec => map (fun c => dotv r c) (columns (ncols B) (rows B))).
  rewrite (nth_indep _ [] (g [])) by now rewrite length_map.
  now rewrite (map_nth g).
Qed.

Lemma nth_matvec l v i :
  (i < length l)%nat -> nth i (matvec l v) 0 = dotv (nth i l []) v.
Proof.
  intros Hi. unfold matvec.
  rewrite (nth_indep _ 0 (dotv [] v)) by now rewrite length_map.
  apply (map_nth (fun r => dotv r v)).
Qed.

Lemma column_matmul A B j :
  (j < ncols B)%nat ->
  column j (rows (matmul A B)) = matvec (rows A) (column j (rows B)).
Proof.
  intros Hj. unfold column at 1, matmul, matvec. cbn [rows]. rewrite map_map.
  apply map_ext. intros r.
  rewrite (nth_indep _ 0 (dotv r [])) by now rewrite length_map, length_columns.
  rewrite (map_nth (fun c => dotv r c)).
  now rewrite nth_columns_in.
Qed.

Lemma matmul_assoc A B C :
  wf A -> wf B -> matmul (matmul A B) C = matmul A (matmul B C).
Proof.
  intros HA HB. apply (matrix_ext (nrows A) (ncols C)).
  - exact (has_shape_matmul (matmul A B) C (wf_matmul A B HA)).
  - exact (has_shape_matmul A (matmul B C) HA).
  - intros i j Hi Hj.
    assert (Hi' : (i < length (rows A))%nat) by (destruct HA as [-> _]; lia).
    rewrite !entry_matmul;
      [|assumption|exact Hj|cbn [matmul rows]; now rewrite length_map|exact Hj].
    rewrite nth_rows_matmul, column_matmul by assumption.
    apply dotv_columns, HB.
Qed.

Lemma mT_matmul A B : wf A -> mT (matmul A B) = matmul (mT B) (mT A).
Proof.
  intros HA. apply (matrix_ext (ncols B) (nrows A)).
  - apply has_shape_mT. now apply has_shape_matmul.
  - split; [|split; reflexivity].
    apply wf_matmul_len. cbn [mT rows nrows]. apply length_columns.
  - intros i j Hi Hj.
    assert (Hj' : (j < length (rows A))%nat) by (destruct HA as [-> _]; lia).
    rewrite entry_matmul
      by (cbn [mT rows ncols]; rewrite ?length_columns; assumption).
    unfold entry. cbn [mT rows matmul ncols nrows].
    rewrite !nth_columns_in by assumption.
    change (map (fun r => map (fun c => dotv r c) (columns (ncols B) (rows B)))
                (rows A)) with (rows (matmul A B)).
    rewrite column_matmul, nth_matvec by assumption.
    rewrite column_columns by (try apply HA; assumption).
    apply dotv_comm.
Qed.

Lemma mT_involutive A : wf A -> mT (mT A) = A.
Proof.
  intros HA. apply (matrix_ext (nrows A) (ncols A)).
  - apply has_shape_mT, has_shape_mT. now split.
  - now split.
  - intros i j Hi Hj. unfold entry. cbn [mT rows ncols nrows].
    rewrite nth_columns_in by assumption.
    rewrite column_columns; [reflexivity|apply HA|].
    destruct HA as [-> _]. assumption.
Qed.

Lemma dotv_unit i : forall v s,
  dotv (map (fun j => if (i =? j)%nat then 1 else 0) (seq s (length v))) v
  = if ((s <=? i) && (i <? s + length v))%nat then nth (i - s) v 0 else 0.
Proof.
  induction v as [|x v IH]; intros s.
  - cbn [length seq map dotv].
    destruct ((s <=? i)%nat && (i <? s + 0)%nat); [|reflexivity].
    now destruct (i - s)%nat.
  - cbn [length seq map dotv]. rewrite IH.
    destruct (Nat.eqb_spec i s) as [->|Hne].
    + rewrite Nat.leb_refl, Nat.sub_diag. cbn [andb nth].
      replace (S s <=? s)%nat with false by (symmetry; apply Nat.leb_gt; lia).
      replace (s <? s + S (length v))%nat with true
        by (symmetry; apply Nat.ltb_lt; lia).
      cbn [andb]. ring.
    + destruct (Nat.leb_spec (S s) i) as [Hle|Hgt].
      * replace (s <=? i)%nat with true by (symmetry; apply Nat.leb_le; lia).
        replace (i <? s + S (length v))%nat with (i <? S s + length v)%nat
          by (f_equal; lia).
        cbn [andb]. destruct (i <? S s + length v)%nat.
        -- replace (i - s)%nat with (S (i - S s)) by lia. cbn [nth]. ring.
        -- ring.
      * replace (s <=? i)%nat with false by (symmetry; apply Nat.leb_gt; lia).
        cbn [andb]. ring.
Qed.

Lemma has_shape_eye n : has_shape n n (eye n).
Proof.
  split; [|split; reflexivity]. split; cbn [eye rows nrows ncols].
  - now rewrite length_map, length_seq.
  - apply Forall_forall. intros x Hx. apply in_map_iff in Hx as (i & <- & _).
    now rewrite length_map, length_seq.
Qed.

Lemma nth_rows_eye n i :
  (i < n)%nat ->
  nth i (rows (eye n)) []
  = map (fun j => if (i =? j)%nat then 1 else 0) (seq 0 n).
Proof.
  intros Hi. cbn [eye rows].
  set (g := fun i => map (fun j => if (i =? j)%nat then 1 else 0) (seq 0 n)).
  rewrite (nth_indep _ [] (g 0%nat)) by now rewrite length_map, length_seq.
  rewrite (map_nth g), seq_nth by assumption. reflexivity.
Qed.

Lemma entry_eye n i j :
  (i < n)%nat -> (j < n)%nat ->
  entry (rows (eye n)) i j = if (i =? j)%nat then 1 else 0.
Proof.
  intros Hi Hj. unfold entry. rewrite nth_rows_eye by assumption.
  set (g := fun j => if (i =? j)%nat then 1 else 0).
  rewrite (nth_indep _ 0 (g 0%nat)) by now rewrite length_map, length_seq.
  rewrite (map_nth g), seq_nth by assumption. reflexivity.
Qed.

Lemma mT_eye n : mT (eye n) = eye n.
Proof.
  apply (matrix_ext n n).
  - apply has_shape_mT, has_shape_eye.
  - apply has_shape_eye.
  - intros i j Hi Hj. unfold entry at 1. cbn [mT eye rows ncols].
    rewrite nth_columns_in by assumption.
    change (map (fun i => map (fun j => if (i =? j)%nat then 1 else 0)
                              (seq 0 n)) (seq 0 n)) with (rows (eye n)).
    rewrite nth_column, !entry_eye by assumption.
    now rewrite Nat.eqb_sym.
Qed.

Lemma matmul_eye_l m n A : has_shape m n A -> matmul (eye m) A = A.
Proof.
  intros HA. apply (matrix_ext m n).
  - destruct HA as (_ & _ & <-).
    exact (has_shape_matmul (eye m) A (proj1 (has_shape_eye m))).
  - exact HA.
  - intros i j Hi Hj. destruct HA as ([Hl _] & HAm & HAn).
    rewrite entry_matmul
      by (cbn [eye rows]; rewrite ?length_map, ?length_seq; lia).
    rewrite nth_rows_eye by assumption.
    replace m with (length (column j (rows A)))
      by (rewrite length_column; lia).
    rewrite dotv_unit, length_column, Hl, HAm. cbn [Nat.leb andb].
    replace (i <? 0 + m)%nat with true by (symmetry; apply Nat.ltb_lt; lia).
    rewrite Nat.sub_0_r. apply nth_column.
Qed.

Lemma matmul_eye_r m n A : has_shape m n A -> matmul A (eye n) = A.
Proof.
  intros HA. pose proof HA as (HAwf & HAm & HAn).
  rewrite <- (mT_involutive (matmul A (eye n))) by now apply wf_matmul.
  rewrite mT_matmul, mT_eye by assumption.
  rewrite (matmul_eye_l n m) by now apply has_shape_mT.
  now apply mT_involutive.
Qed.

(** ** Inverses, pseudo-inverses and the normal equations *)

Lemma inv_ref_sound M N : wf M -> inv_ref M = Ok N -> inverse_of M N.
Proof.
  unfold inv_ref. intros HM H.
  destruct (Nat.eqb_spec (nrows M) (ncols M)) as [Hsq|]; [|discriminate].
  destruct (matrix_eqb (matmul M (pinv_mp M)) (eye (nrows M))) eqn:E1;
    [|discriminate].
  destruct (matrix_eqb (matmul (pinv_mp M) M) (eye (nrows M))) eqn:E2;
    [|discriminate].
  cbn [andb] in H. injection H as <-.
  apply matrix_eqb_eq in E1, E2.
  destruct (pinv_mp_shape M HM) as (HG & HGr & HGc).
  repeat split; try assumption; try apply HG; congruence.
Qed.

Lemma has_shape_square_pinv M G :
  wf M -> nrows M = ncols M -> moore_penrose M G ->
  has_shape (nrows M) (nrows M) G.
Proof.
  intros HM Hsq (HG & HGr & HGc & _). split; [exact HG|]. split; congruence.
Qed.

(** The inverse of a matrix is its Moore-Penrose inverse. *)
Lemma inverse_is_pinv M N G :
  wf M -> inverse_of M N -> moore_penrose M G -> G = N.
Proof.
  intros HM (Hsq & HN & HMN & HNM) HG.
  pose proof (has_shape_square_pinv M G HM Hsq HG) as HGs.
  destruct HG as (HGwf & _ & _ & P1 & _).
  set (n := nrows M) in *.
  assert (HMG : matmul M G = eye n).
  { transitivity (matmul (matmul M G) (matmul M N)).
    - rewrite HMN. symmetry. apply (matmul_eye_r n n).
      pose proof (has_shape_matmul M G HM) as H.
      destruct HGs as (_ & _ & HGc). now rewrite HGc in H.
    - rewrite <- matmul_assoc by (auto using wf_matmul). now rewrite P1. }
  transitivity (matmul (matmul N M) G).
  - rewrite HNM. symmetry. now apply (matmul_eye_l n n).
  - rewrite matmul_assoc by (try apply HN; assumption).
    rewrite HMG. now apply (matmul_eye_r n n).
Qed.

Lemma Qc_mul_nonneg (x y : Qc) : 0 <= x -> 0 <= y -> 0 <= x * y.
Proof.
  intros Hx Hy. replace 0 with (0 * y) by ring.
  now apply Qcmult_le_compat_r.
Qed.

Lemma np_allclose_refl A : np_allclose A A = Ok true.
Proof.
  unfold np_allclose. rewrite !bdim_same. apply f_equal.
  apply forallb_forall. intros i _. apply forallb_forall. intros j _.
  set (x := bget A i j). replace (x - x) with 0 by ring.
  rewrite (Qcabs.Qcabs_pos 0) by apply Qcle_refl.
  apply Qle_bool_iff.
  change (0 <= atol + rtol * Qcabs.Qcabs x).
  apply Qc_add_nonneg; [discriminate|].
  apply Qc_mul_nonneg; [discriminate|apply Qcabs.Qcabs_nonneg].
Qed.

(** In exact arithmetic, the solution that the SVD notebook computes
    with [np.linalg.inv] solves the system: for an exact inverse of [M], [M.dot(np.linalg.inv(M).dot(b))] is [b], for a
    two-dimensional right-hand side with as many rows as [M]. *)
Theorem inv_solution_solves inv M N b p :
  wf M -> has_shape (nrows M) p b ->
  inv M = Ok N -> inverse_of M N ->
  check_solution inv (Arr2 M) (Arr2 b) = Ok (Arr2 b).
Proof.
  intros HM Hb Hinv (Hsq & HN & HMN & HNM).
  unfold check_solution, inv_solution. cbn [np_linalg_inv].
  rewrite Hinv. cbn [rbind np_dot].
  destruct HN as (HNwf & HNr & HNc). destruct Hb as (Hbwf & Hbr & Hbc).
  rewrite HNc, Hbr, Nat.eqb_refl. cbn [rbind np_dot matmul nrows].
  rewrite HNr, <- Hsq, Nat.eqb_refl. apply f_equal. apply f_equal.
  change (matmul M (matmul N b) = b).
  rewrite <- matmul_assoc, HMN by assumption.
  apply (matmul_eye_l (nrows M) p). now split.
Qed.

Lemma inv_solution_solves_witness :
  wf mat22 /\ has_shape (nrows mat22) 1 rhs21
  /\ inv_ref mat22 = Ok (pinv_mp mat22) /\ inverse_of mat22 (pinv_mp mat22)
  /\ check_solution inv_ref (Arr2 mat22) (Arr2 rhs21) = Ok (Arr2 rhs21).
Proof.
  assert (HM : wf mat22) by (apply wfb_wf; reflexivity).
  assert (Hb : has_shape (nrows mat22) 1 rhs21)
    by (split; [apply wfb_wf; reflexivity|split; reflexivity]).
  assert (Hinv : inv_ref mat22 = Ok (pinv_mp mat22)).
  { unfold inv_ref.
    replace ((nrows mat22 =? ncols mat22)%nat
             && matrix_eqb (matmul mat22 (pinv_mp mat22)) (eye (nrows mat22))
             && matrix_eqb (matmul (pinv_mp mat22) mat22) (eye (nrows mat22)))
      with true by (vm_compute; reflexivity).
    reflexivity. }
  pose proof (inv_ref_sound mat22 _ HM Hinv) as Hcontract.
  split; [exact HM|]. split; [exact Hb|]. split; [exact Hinv|].
  split; [exact Hcontract|].
  exact (inv_solution_solves inv_ref mat22 (pinv_mp mat22) rhs21 1
           HM Hb Hinv Hcontract).
Defined.

(** In exact arithmetic, on a matrix that has an inverse, the inverse
    and the pseudo-inverse are the same array, so the check
    [np.allclose(np.linalg.inv(mat), np.linalg.pinv(mat))] of the SVD
    notebook is True. *)
Theorem inv_agrees_with_pinv pinv inv mat N :
  wf mat -> inv mat = Ok N -> inverse_of mat N ->
  moore_penrose mat (pinv mat) ->
  pinv mat = N /\ inv_close_to_pinv pinv inv (Arr2 mat) = Ok true.
Proof.
  intros HM Hinv HN HG.
  pose proof (inverse_is_pinv mat N (pinv mat) HM HN HG) as Heq.
  split; [exact Heq|].
  unfold inv_close_to_pinv. cbn [np_linalg_inv np_linalg_pinv].
  rewrite Hinv. cbn [rbind]. rewrite Heq. apply np_allclose_refl.
Qed.

Lemma inv_agrees_with_pinv_witness :
  wf mat22 /\ inv_ref mat22 = Ok (pinv_mp mat22)
  /\ inverse_of mat22 (pinv_mp mat22)
  /\ moore_penrose mat22 (pinv_mp mat22)
  /\ pinv_mp mat22 = pinv_mp mat22
  /\ inv_close_to_pinv pinv_mp inv_ref (Arr2 mat22) = Ok true.
Proof.
  assert (HM : wf mat22) by (apply wfb_wf; reflexivity).
  assert (Hinv : inv_ref mat22 = Ok (pinv_mp mat22)).
  { unfold inv_ref.
    replace ((nrows mat22 =? ncols mat22)%nat
             && matrix_eqb (matmul mat22 (pinv_mp mat22)) (eye (nrows mat22))
             && matrix_eqb (matmul (pinv_mp mat22) mat22) (eye (nrows mat22)))
      with true by (vm_compute; reflexivity).
    reflexivity. }
  pose proof (inv_ref_sound mat22 _ HM Hinv) as Hcontract.
  assert (Hmp : moore_penrose mat22 (pinv_mp mat22))
    by (apply moore_penroseb_sound; vm_compute; reflexivity).
  split; [exact HM|]. split; [exact Hinv|]. split; [exact Hcontract|].
  split; [exact Hmp|].
  exact (inv_agrees_with_pinv pinv_mp inv_ref mat22 (pinv_mp mat22)
           HM Hinv Hcontract Hmp).
Defined.

(** The pseudo-inverse of a matrix whose normal matrix [A^T A] has the
    inverse [N] is [N A^T]. *)
Lemma normal_matrix_pinv A N G :
  wf A -> inverse_of (matmul (mT A) A) N -> moore_penrose A G ->
  matmul N (mT A) = G.
Proof.
  intros HA (Hsq & HN & HMN & HNM) (HG & HGr & HGc & P1 & _ & P3 & _).
  cbn [matmul mT nrows ncols] in Hsq, HN, HMN, HNM.
  assert (HAt : mT A = matmul (matmul (mT A) A) G).
  { rewrite matmul_assoc by (auto using wf_mT).
    rewrite <- P3, <- mT_matmul by (auto using wf_matmul).
    now rewrite P1. }
  rewrite HAt at 1.
  rewrite <- matmul_assoc by (try apply HN; auto using wf_matmul, wf_mT).
  rewrite HNM. apply (matmul_eye_l (ncols A) (nrows A)).
  split; [exact HG|]. split; assumption.
Qed.

(** In exact arithmetic, the two least-squares solutions of the ALS
    notebook agree (the notebook's floating-point outputs differ from the
    eighth digit on): for an exact inverse of [A.T.dot(A)] and an exact
    pseudo-inverse of [A], the normal equations [np.linalg.inv(A.T.dot(A)).dot(A.T).dot(b)] and
    [np.linalg.pinv(A).dot(b)] give the same array. *)
Theorem normal_equations_agree pinv inv A b N m n p :
  has_shape m n A -> has_shape m p b ->
  inv (matmul (mT A) A) = Ok N -> inverse_of (matmul (mT A) A) N ->
  moore_penrose A (pinv A) ->
  normal_equations inv (Arr2 A) (Arr2 b)
  = Ok (Arr2 (matmul (pinv A) b))
  /\ pinv_solution pinv (Arr2 A) (Arr2 b) = Ok (Arr2 (matmul (pinv A) b)).
Proof.
  intros (HA & HAm & HAn) (Hb & Hbm & Hbp) Hinv HN HG.
  pose proof (normal_matrix_pinv A N (pinv A) HA HN HG) as Heq.
  destruct HN as (_ & (_ & _ & HNc) & _).
  destruct HG as (_ & _ & HGc & _).
  cbn [matmul mT nrows ncols] in HNc.
  split.
  - unfold normal_equations. cbn [np_T np_dot mT nrows ncols].
    rewrite Nat.eqb_refl. cbn [rbind np_linalg_inv]. rewrite Hinv.
    cbn [rbind np_dot mT nrows ncols]. rewrite HNc, Nat.eqb_refl.
    cbn [rbind np_dot matmul mT nrows ncols].
    rewrite HAm, Hbm, Nat.eqb_refl.
    apply f_equal. apply f_equal.
    change (matmul (matmul N (mT A)) b = matmul (pinv A) b).
    now rewrite Heq.
  - unfold pinv_solution. cbn [np_linalg_pinv rbind np_dot].
    now rewrite HGc, HAm, Hbm, Nat.eqb_refl.
Qed.

Lemma normal_equations_agree_witness :
  has_shape 3 2 tall32 /\ has_shape 3 1 rhs31
  /\ inv_ref (matmul (mT tall32) tall32)
     = Ok (pinv_mp (matmul (mT tall32) tall32))
  /\ inverse_of (matmul (mT tall32) tall32)
                (pinv_mp (matmul (mT tall32) tall32))
  /\ moore_penrose tall32 (pinv_mp tall32)
  /\ normal_equations inv_ref (Arr2 tall32) (Arr2 rhs31)
     = Ok (Arr2 (matmul (pinv_mp tall32) rhs31))
  /\ pinv_solution pinv_mp (Arr2 tall32) (Arr2 rhs31)
     = Ok (Arr2 (matmul (pinv_mp tall32) rhs31)).
Proof.
  assert (HA : has_shape 3 2 tall32)
    by (split; [apply wfb_wf; reflexivity|split; reflexivity]).
  assert (Hb : has_shape 3 1 rhs31)
    by (split; [apply wfb_wf; reflexivity|split; reflexivity]).
  assert (HAtA : wf (matmul (mT tall32) tall32))
    by (apply wfb_wf; vm_compute; reflexivity).
  set (AtA := matmul (mT tall32) tall32) in *.
  assert (Hinv : inv_ref AtA = Ok (pinv_mp AtA)).
  { unfold inv_ref.
    replace ((nrows AtA =? ncols AtA)%nat
             && matrix_eqb (matmul AtA (pinv_mp AtA)) (eye (nrows AtA))
             && matrix_eqb (matmul (pinv_mp AtA) AtA) (eye (nrows AtA)))
      with true by (vm_compute; reflexivity).
    reflexivity. }
  pose proof (inv_ref_sound AtA _ HAtA Hinv) as Hcontract.
  assert (Hmp : moore_penrose tall32 (pinv_mp tall32))
    by (apply moore_penroseb_sound; vm_compute; reflexivity).
  split; [exact HA|]. split; [exact Hb|]. split; [exact Hinv|].
  split; [exact Hcontract|]. split; [exact Hmp|].
  exact (normal_equations_agree pinv_mp inv_ref tall32 rhs31 (pinv_mp AtA)
           3 2 1 HA Hb Hinv Hcontract Hmp).
Defined.

(** ** The pair that a call returns *)

(** A pass that returns has met well-shaped arrays, and its results are
    the solved factors. *)
Lemma iteration_ok_inv pinv ratings w R V st st' w' :
  pinv_shape pinv -> heap w ratings = R -> wf R -> wf V ->
  (1 <= nrows R)%nat ->
  value_of (items_var st) w = Arr2 V ->
  iteration pinv (Whole ratings) (Transposed ratings) st w = (Ok st', w') ->
  nrows V = ncols R /\ (nrows R <= ncols R)%nat
  /\ st' = Locals (Fresh (stack (pass_items pinv R V)))
                  (Some (stack (pass_users pinv R V)))
                  (Some (stack (pass_items pinv R V)))
  /\ (exists e, w' = emit w [e])
  /\ (nrows R = ncols R \/ nrows R = 1%nat).
Proof.
  intros Hp Hw HR HV Hm Hst Hrun.
  pose proof (Hp V HV) as HpV.
  pose proof (Hp _ (wf_pass_users_matrix pinv R V HR HpV)) as HpU.
  destruct (Nat.eq_dec (nrows V) (ncols R)) as [Hrows|Hne].
  - destruct (le_lt_dec (nrows R) (ncols R)) as [Hle|Hlt].
    + assert (Hcases : nrows R = ncols R \/ (nrows R <= 1)%nat
                       \/ (1 < nrows R < ncols R)%nat) by lia.
      destruct Hcases as [Hsq|[H1|Hbad]].
      * destruct (pass_iteration pinv ratings w R V Hw HR Hrows HpV HpU
                    st Hst Hle (or_introl Hsq)) as (e & _ & Hit).
        rewrite Hit in Hrun. injection Hrun as <- <-.
        repeat split; eauto.
      * destruct (pass_iteration pinv ratings w R V Hw HR Hrows HpV HpU
                    st Hst Hle (or_intror H1)) as (e & _ & Hit).
        rewrite Hit in Hrun. injection Hrun as <- <-.
        repeat split; eauto. right. lia.
      * rewrite (pass_iteration_broadcast_error pinv ratings w R V Hw HR
                   Hrows HpV HpU st Hst Hbad) in Hrun.
        discriminate.
    + rewrite (pass_iteration_index_error pinv ratings w R V Hw HR Hrows
                 HpV HpU st Hst Hlt) in Hrun.
      discriminate.
  - exfalso. unfold iteration, bind in Hrun.
    rewrite update_users_run, Hst in Hrun. cbn [view_value] in Hrun.
    rewrite Hw in Hrun.
    replace (seq 0 (nrows R)) with (0%nat :: seq 1 (nrows R - 1)) in Hrun
      by (destruct (nrows R); [lia|cbn [seq]; do 2 f_equal; lia]).
    rewrite (collect_raise_first _ _ _ ValueError) in Hrun; [discriminate|].
    apply solve_value_mismatch; [|exact HR|lia].
    destruct HpV as (_ & _ & ->). exact Hne.
Qed.

(** After [n + 1] passes that return, [new_users] and [new_items] hold
    the factors solved from the item factors that the first [n] passes
    carried into the last one. *)
Lemma loop_ok_inv pinv ratings R :
  pinv_shape pinv -> wf R -> (1 <= nrows R)%nat ->
  forall n st w V st' w',
    heap w ratings = R -> wf V ->
    value_of (items_var st) w = Arr2 V ->
    loop pinv (S n) (Whole ratings) (Transposed ratings) st w = (Ok st', w') ->
    new_users_var st'
    = Some (stack (pass_users pinv R (items_after pinv R n V)))
    /\ new_items_var st'
       = Some (stack (pass_items pinv R (items_after pinv R n V))).
Proof.
  intros Hp HR Hm n.
  induction n as [|n IH]; intros st w V st' w' Hw HV Hst Hrun.
  - cbn [loop] in Hrun. unfold bind in Hrun.
    destruct (iteration pinv (Whole ratings) (Transposed ratings) st w)
      as [[st1|e] w1] eqn:Hit; [|discriminate].
    unfold ret in Hrun. injection Hrun as <- <-.
    destruct (iteration_ok_inv pinv ratings w R V st st1 w1 Hp Hw HR HV Hm
                Hst Hit) as (_ & _ & -> & _ & _).
    cbn. auto.
  - change (loop pinv (S (S n)) (Whole ratings) (Transposed ratings) st w)
      with (bind (iteration pinv (Whole ratings) (Transposed ratings) st)
                 (loop pinv (S n) (Whole ratings) (Transposed ratings)) w)
      in Hrun.
    unfold bind in Hrun.
    destruct (iteration pinv (Whole ratings) (Transposed ratings) st w)
      as [[st1|e] w1] eqn:Hit; [|discriminate].
    destruct (iteration_ok_inv pinv ratings w R V st st1 w1 Hp Hw HR HV Hm
                Hst Hit) as (Hrows & Hle & -> & (e & ->) & _).
    cbn [items_after].
    apply (IH (Locals (Fresh (stack (pass_items pinv R V)))
                      (Some (stack (pass_users pinv R V)))
                      (Some (stack (pass_items pinv R V))))
              (emit w [e]) (next_items pinv R V) st' w');
      [exact Hw|now apply wf_next_items| |exact Hrun].
    cbn [items_var value_of].
    apply stack_pass_items; auto; [|lia].
    apply Hp. apply wf_pass_users_matrix; auto.
Qed.

(** On a square ratings matrix and item factors with one row per column
    of the ratings the call returns. *)
Lemma als_square_returns pinv ratings users items reps w :
  pinv_shape pinv ->
  wf (heap w ratings) -> wf (heap w items) ->
  (1 <= reps)%Z ->
  nrows (heap w ratings) = ncols (heap w ratings) ->
  nrows (heap w items) = ncols (heap w ratings) ->
  exists u v w', als pinv ratings users items reps w = (Ok (u, v), w').
Proof.
  intros Hp HR HV Hreps Hsq Hrows. unfold als, bind.
  replace (Z.to_nat reps) with (S (Z.to_nat (reps - 1))) by lia.
  destruct (Nat.eq_dec (nrows (heap w ratings)) 0) as [Hm|Hm].
  - rewrite loop_no_users by exact Hm.
    cbn [return_factors new_users_var new_items_var]. unfold ret. eauto.
  - destruct (loop_square pinv ratings (heap w ratings) Hp HR Hsq ltac:(lia)
                (S (Z.to_nat (reps - 1)))
                (Locals (Caller (Whole items)) None None) w (heap w items)
                eq_refl eq_refl HV Hrows) as (st' & out & Hloop & _).
    rewrite Hloop.
    destruct (loop_ok_inv pinv ratings (heap w ratings) Hp HR ltac:(lia) _
                (Locals (Caller (Whole items)) None None) w
                (heap w items) st' _ eq_refl HV eq_refl Hloop) as [Hu Hv].
    unfold return_factors. rewrite Hu, Hv. unfold ret. eauto.
Qed.

(** C5.  For an iteration count [reps >= 1], whenever the call returns a
    pair, it is the pair of the last pass: the user factors are
    [pinv(carried)] applied to each row of the ratings, where [carried]
    are the item factors that the first [reps - 1] passes solved and left
    in [items] (the initial ones when [reps = 1]), and the item factors
    are the pseudo-inverse of those user factors applied to the columns
    of the ratings.  On a square ratings matrix and item factors with one
    row per column of the ratings the call does return. *)
Theorem als_returns_final_iteration pinv ratings users items reps w :
  pinv_shape pinv ->
  wf (heap w ratings) -> wf (heap w items) ->
  (1 <= reps)%Z ->
  let R := heap w ratings in
  let carried := items_after pinv R (Z.to_nat (reps - 1)) (heap w items) in
  (forall u v w',
     als pinv ratings users items reps w = (Ok (u, v), w') ->
     u = stack (pass_users pinv R carried)
     /\ v = stack (pass_items pinv R carried))
  /\ (nrows R = ncols R -> nrows (heap w items) = ncols R ->
      exists u v w', als pinv ratings users items reps w = (Ok (u, v), w')).
Proof.
  intros Hp HR HV Hreps R carried.
  assert (Hn : Z.to_nat reps = S (Z.to_nat (reps - 1))) by lia.
  assert (Hfirst : forall u v w',
            als pinv ratings users items reps w = (Ok (u, v), w') ->
            u = stack (pass_users pinv R carried)
            /\ v = stack (pass_items pinv R carried)).
  { intros u v w' Hals. unfold als, bind in Hals. rewrite Hn in Hals.
    destruct (Nat.eq_dec (nrows R) 0) as [Hm|Hm].
    - rewrite loop_no_users in Hals by exact Hm.
      cbn [return_factors new_users_var new_items_var] in Hals.
      unfold ret in Hals. injection Hals as <- <- _.
      assert (Hrows : rows R = []).
      { destruct HR as [Hl _]. fold R in Hl. rewrite Hm in Hl.
        now apply length_zero_iff_nil. }
      unfold pass_users, pass_items. rewrite Hrows, Hm. split; reflexivity.
    - destruct (loop pinv (S (Z.to_nat (reps - 1))) (Whole ratings)
                     (Transposed ratings)
                     (Locals (Caller (Whole items)) None None) w)
        as [[st'|e] w1] eqn:Hloop; [|discriminate].
      destruct (loop_ok_inv pinv ratings R Hp HR ltac:(lia) _
                  (Locals (Caller (Whole items)) None None) w
                  (heap w items) st' w1 eq_refl HV eq_refl Hloop)
        as [Hu Hv].
      unfold return_factors in Hals. rewrite Hu, Hv in Hals.
      unfold ret in Hals. injection Hals as <- <- _. split; reflexivity. }
  split; [exact Hfirst|].
  intros Hsq Hrows. now apply als_square_returns.
Qed.

(** At two passes over the 2 x 2 ratings the carried item factors are not
    the initial ones, and the user factors solved against them differ
    from those solved against the initial ones. *)
Lemma als_returns_final_iteration_witness :
  pinv_shape pinv_mp
  /\ wf (heap two_by_two 0) /\ wf (heap two_by_two 2)
  /\ (1 <= 2)%Z
  /\ stack (pass_users pinv_mp (heap two_by_two 0)
                       (items_after pinv_mp (heap two_by_two 0)
                                    (Z.to_nat (2 - 1)) (heap two_by_two 2)))
     <> stack (pass_users pinv_mp (heap two_by_two 0) (heap two_by_two 2))
  /\ (forall u v w',
        als pinv_mp 0 1 2 2 two_by_two = (Ok (u, v), w') ->
        u = stack (pass_users pinv_mp (heap two_by_two 0)
                     (items_after pinv_mp (heap two_by_two 0)
                                  (Z.to_nat (2 - 1)) (heap two_by_two 2)))
        /\ v = stack (pass_items pinv_mp (heap two_by_two 0)
                        (items_after pinv_mp (heap two_by_two 0)
                                     (Z.to_nat (2 - 1)) (heap two_by_two 2))))
  /\ (nrows (heap two_by_two 0) = ncols (heap two_by_two 0) ->
      nrows (heap two_by_two 2) = ncols (heap two_by_two 0) ->
      exists u v w', als pinv_mp 0 1 2 2 two_by_two = (Ok (u, v), w')).
Proof.
  assert (H22 : wf (heap two_by_two 0)) by (apply wfb_wf; reflexivity).
  assert (H21 : wf (heap two_by_two 2)) by (apply wfb_wf; reflexivity).
  split; [exact pinv_mp_shape|]. split; [exact H22|]. split; [exact H21|].
  split; [lia|]. split.
  - intros E.
    apply (f_equal (fun a => match a with
                             | Arr2 A => this (nth 0 (nth 0 (rows A) []) 0)
                             | _ => 0%Q
                             end)) in E.
    vm_compute in E. discriminate E.
  - apply (als_returns_final_iteration pinv_mp 0 1 2 2 two_by_two
             pinv_mp_shape H22 H21). lia.
Defined.

(** ** When a call returns *)

Lemma loop_first_pass pinv r rc n st w st' w' :
  loop pinv (S n) r rc st w = (Ok st', w') ->
  exists st1 w1,
    iteration pinv r rc st w = (Ok st1, w1)
    /\ loop pinv n r rc st1 w1 = (Ok st', w').
Proof.
  change (loop pinv (S n) r rc st w)
    with (bind (iteration pinv r rc st) (loop pinv n r rc) w).
  unfold bind. intros H.
  destruct (iteration pinv r rc st w) as [[st1|e] w1]; [|discriminate].
  eauto.
Qed.

(** X7.  Which calls return.  With at least one user and at least one
    pass, [als] returns a pair exactly when the item factors have one row
    per column of the ratings and either the ratings are square or there
    is a single user, at least one item and a single pass; every other
    call raises. *)
Theorem als_returns_iff pinv ratings users items reps w :
  pinv_shape pinv ->
  wf (heap w ratings) -> wf (heap w items) ->
  (1 <= nrows (heap w ratings))%nat ->
  (1 <= reps)%Z ->
  (exists u v w', als pinv ratings users items reps w = (Ok (u, v), w'))
  <-> nrows (heap w items) = ncols (heap w ratings)
      /\ (nrows (heap w ratings) = ncols (heap w ratings)
          \/ (nrows (heap w ratings) = 1%nat
              /\ (1 <= ncols (heap w ratings))%nat /\ reps = 1%Z)).
Proof.
  intros Hp HR HV Hm Hreps.
  set (R := heap w ratings) in *. set (V0 := heap w items) in *.
  split.
  - intros (u & v & w' & Hals). unfold als, bind in Hals.
    destruct (loop pinv (Z.to_nat reps) (Whole ratings) (Transposed ratings)
                   (Locals (Caller (Whole items)) None None) w)
      as [[st'|e] w1] eqn:Hloop; [clear Hals|discriminate].
    replace (Z.to_nat reps) with (S (Z.to_nat (reps - 1))) in Hloop by lia.
    apply loop_first_pass in Hloop as (st1 & w2 & Hit & Hrest).
    destruct (iteration_ok_inv pinv ratings w R V0
                (Locals (Caller (Whole items)) None None) st1 w2 Hp eq_refl
                HR HV Hm eq_refl Hit)
      as (Hrows & Hle & -> & (e & ->) & Hshape).
    split; [exact Hrows|].
    destruct (Z.to_nat (reps - 1)) as [|n] eqn:En.
    + destruct Hshape as [Hsq|H1]; [now left|right].
      split; [exact H1|split; lia].
    + left. apply loop_first_pass in Hrest as (st2 & w3 & Hit2 & _).
      assert (HpU : pinv_shape_at pinv (pass_users_matrix pinv R V0))
        by (apply Hp, wf_pass_users_matrix; auto).
      destruct (iteration_ok_inv pinv ratings (emit w [e]) R
                  (next_items pinv R V0)
                  (Locals (Fresh (stack (pass_items pinv R V0)))
                          (Some (stack (pass_users pinv R V0)))
                          (Some (stack (pass_items pinv R V0))))
                  st2 w3 Hp eq_refl HR
                  (wf_next_items pinv R V0 Hp HR HV Hle) Hm
                  (stack_pass_items pinv R V0 Hrows HpU ltac:(lia) Hle) Hit2)
        as (Hrows2 & _).
      exact Hrows2.
  - intros (Hrows & [Hsq | (H1 & Hr & ->)]).
    + now apply als_square_returns.
    + destruct (pass_iteration pinv ratings w R V0 eq_refl HR Hrows
                  (Hp _ HV)
                  (Hp _ (wf_pass_users_matrix pinv R V0 HR (Hp _ HV)))
                  (Locals (Caller (Whole items)) None None) eq_refl)
        as (e & _ & Hrun); [lia|right; lia|].
      unfold als. change (Z.to_nat 1) with 1%nat. cbn [loop].
      unfold bind at 1 2. rewrite Hrun.
      do 3 eexists. reflexivity.
Qed.

Lemma als_returns_iff_witness :
  pinv_shape pinv_mp
  /\ wf (heap one_user_two_items 0) /\ wf (heap one_user_two_items 2)
  /\ (1 <= nrows (heap one_user_two_items 0))%nat
  /\ (1 <= 2)%Z
  /\ ((exists u v w',
         als pinv_mp 0 1 2 2 one_user_two_items = (Ok (u, v), w'))
      <-> nrows (heap one_user_two_items 2) = ncols (heap one_user_two_items 0)
          /\ (nrows (heap one_user_two_items 0)
              = ncols (heap one_user_two_items 0)
              \/ (nrows (heap one_user_two_items 0) = 1%nat
                  /\ (1 <= ncols (heap one_user_two_items 0))%nat
                  /\ 2%Z = 1%Z))).
Proof.
  assert (HR : wf (heap one_user_two_items 0)) by (apply wfb_wf; reflexivity).
  assert (HV : wf (heap one_user_two_items 2)) by (apply wfb_wf; reflexivity).
  split; [exact pinv_mp_shape|]. split; [exact HR|]. split; [exact HV|].
  split; [cbn; lia|]. split; [lia|].
  apply (als_returns_iff pinv_mp 0 1 2 2 one_user_two_items pinv_mp_shape
           HR HV); [cbn; lia|lia].
Defined.

(** X8.  A single user and several items: the first pass succeeds, prints
    its error and leaves item factors of a single row; the second pass
    multiplies their pseudo-inverse with a row of the ratings, whose
    length is the number of items, and raises ValueError.  A call with two
    or more passes prints one error and raises. *)
Theorem als_single_user_second_pass pinv ratings users items reps w :
  pinv_shape pinv ->
  wf (heap w ratings) -> wf (heap w items) ->
  nrows (heap w items) = ncols (heap w ratings) ->
  nrows (heap w ratings) = 1%nat ->
  (1 < ncols (heap w ratings))%nat ->
  (2 <= reps)%Z ->
  exists e,
    als pinv ratings users items reps w = (Raise ValueError, emit w [e]).
Proof.
  intros Hp HR HV Hrows Hm Hr Hreps.
  set (R := heap w ratings) in *. set (V0 := heap w items) in *.
  assert (HpU : pinv_shape_at pinv (pass_users_matrix pinv R V0))
    by (apply Hp, wf_pass_users_matrix; auto).
  destruct (pass_iteration pinv ratings w R V0 eq_refl HR Hrows (Hp _ HV) HpU
              (Locals (Caller (Whole items)) None None) eq_refl)
    as (e & _ & Hrun); [lia|right; lia|].
  assert (Hsecond :
            iteration pinv (Whole ratings) (Transposed ratings)
              (Locals (Fresh (stack (pass_items pinv R V0)))
                      (Some (stack (pass_users pinv R V0)))
                      (Some (stack (pass_items pinv R V0))))
              (emit w [e])
            = (Raise ValueError, emit w [e])).
  { unfold iteration, bind. rewrite update_users_run.
    cbn [items_var value_of view_value emit heap]. fold R.
    rewrite (stack_pass_items pinv R V0 Hrows HpU) by lia.
    change (Mat (nrows R) (ncols V0) (pass_items pinv R V0))
      with (next_items pinv R V0).
    replace (seq 0 (nrows R)) with [0%nat] by now rewrite Hm.
    rewrite (collect_raise_first _ _ _ ValueError); [reflexivity|].
    apply solve_value_mismatch; [|exact HR|lia].
    destruct (Hp _ (wf_next_items pinv R V0 Hp HR HV ltac:(lia)))
      as (_ & _ & ->).
    cbn [next_items nrows]. lia. }
  exists e. unfold als.
  replace (Z.to_nat reps) with (S (S (Z.to_nat (reps - 2)))) by lia.
  change (loop pinv (S (S (Z.to_nat (reps - 2)))) (Whole ratings)
               (Transposed ratings) (Locals (Caller (Whole items)) None None))
    with (bind (iteration pinv (Whole ratings) (Transposed ratings)
                          (Locals (Caller (Whole items)) None None))
               (fun st1 =>
                  bind (iteration pinv (Whole ratings) (Transposed ratings)
                                  st1)
                       (loop pinv (Z.to_nat (reps - 2)) (Whole ratings)
                             (Transposed ratings)))).
  unfold bind at 1 2. rewrite Hrun. unfold bind. now rewrite Hsecond.
Qed.

Lemma als_single_user_second_pass_witness :
  pinv_shape pinv_mp
  /\ wf (heap one_user_two_items 0) /\ wf (heap one_user_two_items 2)
  /\ nrows (heap one_user_two_items 2) = ncols (heap one_user_two_items 0)
  /\ nrows (heap one_user_two_items 0) = 1%nat
  /\ (1 < ncols (heap one_user_two_items 0))%nat
  /\ (2 <= 3)%Z
  /\ exists e,
       als pinv_mp 0 1 2 3 one_user_two_items
       = (Raise ValueError, emit one_user_two_items [e]).
Proof.
  assert (HR : wf (heap one_user_two_items 0)) by (apply wfb_wf; reflexivity).
  assert (HV : wf (heap one_user_two_items 2)) by (apply wfb_wf; reflexivity).
  split; [exact pinv_mp_shape|]. split; [exact HR|]. split; [exact HV|].
  split; [reflexivity|]. split; [reflexivity|]. split; [cbn; lia|].
  split; [lia|].
  apply (als_single_user_second_pass pinv_mp 0 1 2 3 one_user_two_items
           pinv_mp_shape HR HV eq_refl eq_refl); [cbn; lia|lia].
Defined.
